(** * Crash-dump debugging cache: artifact and symbol stores

    A shallow embedding of [tasks/debugging/dump.py]: the key-value path
    store, the symbol store, artifact handles and their store, archive
    extraction and the symbol resolution logic, together with the POSIX
    file-system and [pathlib] behaviour these functions rely on.

    Conventions of the model.  Paths are POSIX paths and the library is
    that of CPython 3.11.  The file system is a finite map from places
    to files and directories; a name holds at most [NAME_MAX] bytes and a
    path fewer than [PATH_MAX]; there are no symbolic links and no
    permissions.  A path does not start with exactly two slashes, which
    [pathlib] keeps as a root of its own, and the directory searched
    with [glob] has no pattern character in its name.  Every
    function of the source that touches the disk, draws a temporary
    name or calls the CI provider is a computation over a world that
    holds the file system, the working directory, the names
    [tempfile] will draw and the log of provider requests; an exception
    leaves the world as it was when it was raised.  Archive decoding
    and the provider are parameters.  Directory listings come in the
    order of the map, which stands for the order the operating system
    happens to use. *)

From Stdlib Require Import ZArith Lia String Ascii.
From stdpp Require Import base option list gmap strings.

Local Open Scope Z_scope.

(** ** Python text and bytes

    A Python [str] is a sequence of Unicode code points and a [bytes]
    object a sequence of octets; both are lists of integers here. *)

Abbreviation pystr := (list Z) (only parsing).
Abbreviation bytes := (list Z) (only parsing).

(** A literal of the source, written as a Rocq string. *)
Definition py (s : string) : pystr :=
  (λ a, Z.of_N (N_of_ascii a)) <$> list_ascii_of_string s.

(** [s.endswith(suffix)] *)
Fixpoint startswith (p s : pystr) : bool :=
  match p, s with
  | [], _ => true
  | _ :: _, [] => false
  | a :: p', b :: s' => bool_decide (a = b) && startswith p' s'
  end.

Definition endswith (s suffix : pystr) : bool :=
  startswith (reverse suffix) (reverse s).

(** [s.removesuffix(suffix)] *)
Definition removesuffix (s suffix : pystr) : pystr :=
  if endswith s suffix then take (length s - length suffix)%nat s else s.

(** [str.isspace] for one code point (the table of CPython's
    [_PyUnicode_IsWhitespace]). *)
Definition isspace (c : Z) : bool :=
  bool_decide (9 ≤ c ≤ 13) || bool_decide (28 ≤ c ≤ 32)
  || bool_decide (c = 133) || bool_decide (c = 160)
  || bool_decide (c = 5760) || bool_decide (8192 ≤ c ≤ 8202)
  || bool_decide (c = 8232) || bool_decide (c = 8233)
  || bool_decide (c = 8239) || bool_decide (c = 8287)
  || bool_decide (c = 12288).

Fixpoint lstrip (s : pystr) : pystr :=
  match s with
  | [] => []
  | c :: r => if isspace c then lstrip r else s
  end.

Definition rstrip (s : pystr) : pystr := reverse (lstrip (reverse s)).

(** [s.strip()] *)
Definition strip (s : pystr) : pystr := lstrip (rstrip s).

(** [s.split(sep)] for a one-character separator. *)
Fixpoint split_on (sep : Z) (s : pystr) : list pystr :=
  match s with
  | [] => [[]]
  | c :: r =>
      if decide (c = sep) then [] :: split_on sep r
      else match split_on sep r with
           | [] => [[c]]
           | h :: t => (c :: h) :: t
           end
  end.

(** [sep.join(l)] *)
Fixpoint join_on (sep : Z) (l : list pystr) : pystr :=
  match l with
  | [] => []
  | [x] => x
  | x :: r => x ++ sep :: join_on sep r
  end.

(** *** UTF-8

    [str.encode('utf-8')] and [bytes.decode('utf-8')] in their default
    strict mode: surrogates are not encodable, and overlong forms,
    surrogates and values above U+10FFFF are not decodable.  [None]
    stands for [UnicodeEncodeError] and [UnicodeDecodeError]. *)

Definition utf8_encode_char (c : Z) : option bytes :=
  if decide (0 ≤ c < 128) then Some [c]
  else if decide (128 ≤ c < 2048) then
    Some [192 + c / 64; 128 + c mod 64]
  else if decide (2048 ≤ c < 65536) then
    if decide (55296 ≤ c ≤ 57343) then None
    else Some [224 + c / 4096; 128 + (c / 64) mod 64; 128 + c mod 64]
  else if decide (65536 ≤ c < 1114112) then
    Some [240 + c / 262144; 128 + (c / 4096) mod 64;
          128 + (c / 64) mod 64; 128 + c mod 64]
  else None.

Fixpoint utf8_encode (s : pystr) : option bytes :=
  match s with
  | [] => Some []
  | c :: r =>
      match utf8_encode_char c, utf8_encode r with
      | Some bs, Some rest => Some (bs ++ rest)
      | _, _ => None
      end
  end.

Definition is_cont (b : Z) : bool := bool_decide (128 ≤ b < 192).

Fixpoint utf8_decode (bs : bytes) : option pystr :=
  match bs with
  | [] => Some []
  | b0 :: r0 =>
      if decide (0 ≤ b0 < 128) then cons b0 <$> utf8_decode r0
      else if decide (194 ≤ b0 < 224) then
        match r0 with
        | b1 :: r1 =>
            if is_cont b1
            then cons ((b0 - 192) * 64 + (b1 - 128)) <$> utf8_decode r1
            else None
        | _ => None
        end
      else if decide (224 ≤ b0 < 240) then
        match r0 with
        | b1 :: b2 :: r2 =>
            let c := (b0 - 224) * 4096 + (b1 - 128) * 64 + (b2 - 128) in
            if is_cont b1 && is_cont b2
               && bool_decide (2048 ≤ c) && negb (bool_decide (55296 ≤ c ≤ 57343))
            then cons c <$> utf8_decode r2
            else None
        | _ => None
        end
      else if decide (240 ≤ b0 < 245) then
        match r0 with
        | b1 :: b2 :: b3 :: r3 =>
            let c := (b0 - 240) * 262144 + (b1 - 128) * 4096
                     + (b2 - 128) * 64 + (b3 - 128) in
            if is_cont b1 && is_cont b2 && is_cont b3
               && bool_decide (65536 ≤ c < 1114112)
            then cons c <$> utf8_decode r3
            else None
        | _ => None
        end
      else None
  end.

(** [os.fsencode]: UTF-8 with the [surrogateescape] error handler, under
    which the code points U+DC80 to U+DCFF stand for the bytes 0x80 to
    0xFF.  [None] stands for [UnicodeEncodeError]. *)
Definition fsencode_char (c : Z) : option bytes :=
  if decide (56448 ≤ c ≤ 56575) then Some [c - 56320]
  else utf8_encode_char c.

Fixpoint fsencode (s : pystr) : option bytes :=
  match s with
  | [] => Some []
  | c :: r =>
      match fsencode_char c, fsencode r with
      | Some bs, Some rest => Some (bs ++ rest)
      | _, _ => None
      end
  end.

(** ** Pure paths ([pathlib.PurePosixPath])

    A path is its anchor (rooted at [/] or not) and its components.
    Parsing drops empty and [.] components and keeps [..]. *)

Record PurePath := mkPath { anchored : bool; parts : list pystr }.

#[global] Instance PurePath_eq_dec : EqDecision PurePath.
Proof. solve_decision. Defined.

Definition slash : Z := 47.
Definition dot : pystr := [46].
Definition dotdot : pystr := [46; 46].

(** A component that survives parsing. *)
Definition keeps (c : pystr) : bool :=
  negb (bool_decide (c = [])) && negb (bool_decide (c = dot)).

(** [Path(s)]; a leading [//] is read as [/], which is how Linux
    resolves it. *)
Definition Path (s : pystr) : PurePath :=
  {| anchored := bool_decide (head s = Some slash);
     parts := filter (λ c, keeps c = true) (split_on slash s) |}.

(** [p / s] and the extra arguments of [Path(p, s, ...)]: an absolute
    right operand replaces the left one. *)
Definition joinpath (p : PurePath) (s : pystr) : PurePath :=
  let q := Path s in
  if anchored q then q
  else {| anchored := anchored p; parts := parts p ++ parts q |}.

Infix "</>" := joinpath (at level 40, left associativity).

(** [str(p)] *)
Definition path_str (p : PurePath) : pystr :=
  match anchored p, parts p with
  | true, ps => slash :: join_on slash ps
  | false, [] => dot
  | false, ps => join_on slash ps
  end.

(** [p.name] *)
Definition path_name (p : PurePath) : pystr := default [] (last (parts p)).

(** [p.parent] *)
Definition path_parent (p : PurePath) : PurePath :=
  {| anchored := anchored p; parts := removelast (parts p) |}.

(** [os.path.join(p, name)] for a directory entry [name]. *)
Definition path_child (p : PurePath) (name : pystr) : PurePath :=
  {| anchored := anchored p; parts := parts p ++ [name] |}.

(** [os.path.normpath]: empty and [.] components are dropped and [..]
    is collapsed lexically. *)
Fixpoint normparts (anch : bool) (acc : list pystr) (ps : list pystr) : list pystr :=
  match ps with
  | [] => reverse acc
  | c :: r =>
      if decide (c = [] ∨ c = dot) then normparts anch acc r
      else if decide (c = dotdot) then
        match acc with
        | [] => if anch then normparts anch [] r else normparts anch [c] r
        | a :: acc' =>
            if decide (a = dotdot) then normparts anch (c :: acc) r
            else normparts anch acc' r
        end
      else normparts anch (c :: acc) r
  end.

Definition normpath (p : PurePath) : PurePath :=
  {| anchored := anchored p; parts := normparts (anchored p) [] (parts p) |}.

(** ** The world: file system, temporary names and the provider log *)

(** A location is the list of names from the root directory down. *)
Abbreviation loc := (list (list Z)) (only parsing).

Inductive kind := KFile (data : bytes) | KDir.

#[global] Instance kind_eq_dec : EqDecision kind.
Proof. solve_decision. Defined.

(** The exceptions that the modelled code can meet. *)
Inductive exn :=
  | FileNotFoundError
  | FileExistsError
  | NotADirectoryError
  | IsADirectoryError
  | OSError (errno : Z)
  | SameFileError
  | ShutilError
  | ValueError
  | UnicodeEncodeError
  | UnicodeDecodeError
  | BadZipFile
  | RecursionError
  | UnboundLocalError (var : string)
  | GitlabError (code : Z).

#[global] Instance exn_eq_dec : EqDecision exn.
Proof. solve_decision. Defined.

Definition ENAMETOOLONG : Z := 36.

(** [isinstance(e, OSError)] *)
Definition is_OSError (e : exn) : bool :=
  match e with
  | FileNotFoundError | FileExistsError | NotADirectoryError
  | IsADirectoryError | OSError _ | SameFileError | ShutilError => true
  | _ => false
  end.

(** [isinstance(e, ValueError)] *)
Definition is_ValueError (e : exn) : bool :=
  match e with
  | ValueError | UnicodeEncodeError | UnicodeDecodeError => true
  | _ => false
  end.

(** [pathlib._ignore_error]: the error says that the path does not
    exist ([ENOENT], [ENOTDIR]; [EBADF] and [ELOOP] do not occur here). *)
Definition _ignore_error (e : exn) : bool :=
  match e with
  | FileNotFoundError | NotADirectoryError => true
  | _ => false
  end.

(** One request to the CI provider. *)
Inductive ci_call :=
  | CallJobsGet (job_id : option pystr)
  | CallPipelinesGet (pipeline_id : pystr)
  | CallPipelineJobsList (pipeline_id : pystr)
  | CallJobArtifacts (job_id : pystr).

Record world := World {
  fs : gmap loc kind;          (* the directory tree, flattened *)
  cwd : loc;                   (* the working directory *)
  tmpdir : PurePath;           (* [tempfile.gettempdir()], an absolute path *)
  rng : list pystr;            (* the random names [tempfile] will draw *)
  ci_log : list ci_call        (* requests sent to the CI provider so far *)
}.

Definition set_fs (f : gmap loc kind) (w : world) : world :=
  World f (cwd w) (tmpdir w) (rng w) (ci_log w).
Definition set_rng (r : list pystr) (w : world) : world :=
  World (fs w) (cwd w) (tmpdir w) r (ci_log w).
Definition log_call (c : ci_call) (w : world) : world :=
  World (fs w) (cwd w) (tmpdir w) (rng w) (ci_log w ++ [c]).

(** *** A state and exception monad *)

Inductive result (A : Type) := Ok (a : A) | Raise (e : exn).
Arguments Ok {A} a.
Arguments Raise {A} e.

#[global] Instance result_eq_dec {A} `{EqDecision A} : EqDecision (result A).
Proof. solve_decision. Defined.

Definition M (A : Type) : Type := world → result A * world.

Definition ret {A} (a : A) : M A := λ w, (Ok a, w).
Definition bind {A B} (m : M A) (f : A → M B) : M B := λ w,
  match m w with
  | (Ok a, w') => f a w'
  | (Raise e, w') => (Raise e, w')
  end.

Notation "'let*' x ':=' m 'in' k" := (bind m (λ x, k))
  (at level 10, x name, m at level 100, k at level 200).
Notation "m ;; k" := (bind m (λ _, k))
  (at level 100, right associativity).

Definition raise {A} (e : exn) : M A := λ w, (Raise e, w).

(** [try: m except Exception as e: h e] *)
Definition try_except {A} (m : M A) (h : exn → M A) : M A := λ w,
  match m w with
  | (Raise e, w') => h e w'
  | r => r
  end.

(** [try: m finally: c] *)
Definition finally {A} (m : M A) (c : M unit) : M A := λ w,
  match m w with
  | (r, w') =>
      match c w' with
      | (Ok _, w'') => (r, w'')
      | (Raise e, w'') => (Raise e, w'')
      end
  end.

Definition get_world : M world := λ w, (Ok w, w).
Definition modify (f : world → world) : M unit := λ w, (Ok tt, f w).

Fixpoint foldM {A B} (f : B → A → M B) (b : B) (l : list A) : M B :=
  match l with
  | [] => ret b
  | a :: r => let* b' := f b a in foldM f b' r
  end.

(** *** Path resolution

    The kernel follows a path one component at a time: the directory
    reached so far must exist before the next name is looked at, a name
    of more than [NAME_MAX] bytes is refused by the directory it is
    looked up in, and [..] moves to the parent.  There are no symbolic
    links. *)

Definition NAME_MAX : nat := 255.
Definition PATH_MAX : nat := 4096.

Definition name_too_long (c : pystr) : bool :=
  match fsencode c with
  | Some bs => bool_decide (NAME_MAX < length bs)%nat
  | None => false
  end.

Definition step (cur : loc) (c : pystr) : loc :=
  if decide (c = dotdot) then removelast cur
  else if decide (c = dot) then cur
  else cur ++ [c].

Fixpoint walk (f : gmap loc kind) (cur : loc) (comps : list pystr) : result loc :=
  match comps with
  | [] => Ok cur
  | c :: rest =>
      match f !! cur with
      | None => Raise FileNotFoundError
      | Some (KFile _) => Raise NotADirectoryError
      | Some KDir =>
          if name_too_long c then Raise (OSError ENAMETOOLONG)
          else walk f (step cur c) rest
      end
  end.

Definition start (w : world) (p : PurePath) : loc :=
  if anchored p then [] else cwd w.

(** What happens to a path before the kernel follows it: the
    interpreter encodes it and refuses a null character, and the kernel
    refuses a path that does not fit in [PATH_MAX] bytes with its
    terminator. *)
Definition check_path (p : PurePath) : result unit :=
  match fsencode (path_str p) with
  | None => Raise UnicodeEncodeError
  | Some bs =>
      if bool_decide (0 ∈ bs) then Raise ValueError
      else if bool_decide (PATH_MAX ≤ length bs)%nat then Raise (OSError ENAMETOOLONG)
      else Ok tt
  end.

(** The place a path leads to. *)
Definition resolve (w : world) (p : PurePath) : result loc :=
  match check_path p with
  | Ok _ => walk (fs w) (start w p) (parts p)
  | Raise e => Raise e
  end.

Definition namei (p : PurePath) : M loc := λ w, (resolve w p, w).

(** *** System calls *)

(** [os.stat] *)
Definition os_stat (p : PurePath) : M kind :=
  let* l := namei p in
  let* w := get_world in
  match fs w !! l with
  | None => raise FileNotFoundError
  | Some k => ret k
  end.

(** [os.path.exists]: [except (OSError, ValueError): return False] *)
Definition path_exists (p : PurePath) : M bool :=
  try_except (os_stat p ;; ret true)
    (λ e, if is_OSError e || is_ValueError e then ret false else raise e).

(** [os.path.isdir] *)
Definition path_isdir (p : PurePath) : M bool :=
  try_except (let* k := os_stat p in ret (bool_decide (k = KDir)))
    (λ e, if is_OSError e || is_ValueError e then ret false else raise e).

(** [Path.exists]: an [OSError] that does not say that the path is
    missing is raised again. *)
Definition Path_exists (p : PurePath) : M bool :=
  try_except (os_stat p ;; ret true)
    (λ e, if is_OSError e then
            if _ignore_error e then ret false else raise e
          else if is_ValueError e then ret false
          else raise e).

(** [Path.is_dir] *)
Definition Path_is_dir (p : PurePath) : M bool :=
  try_except (let* k := os_stat p in ret (bool_decide (k = KDir)))
    (λ e, if is_OSError e then
            if _ignore_error e then ret false else raise e
          else if is_ValueError e then ret false
          else raise e).

(** [os.mkdir] *)
Definition os_mkdir (p : PurePath) : M unit :=
  let* l := namei p in
  let* w := get_world in
  match fs w !! l with
  | Some _ => raise FileExistsError
  | None => modify (λ w, set_fs (<[l := KDir]> (fs w)) w)
  end.

(** [open(p, 'wb').write(data)] *)
Definition write_file (p : PurePath) (data : bytes) : M unit :=
  let* l := namei p in
  let* w := get_world in
  match fs w !! l with
  | Some KDir => raise IsADirectoryError
  | _ => modify (λ w, set_fs (<[l := KFile data]> (fs w)) w)
  end.

(** [open(p, 'rb').read()] *)
Definition read_file (p : PurePath) : M bytes :=
  let* l := namei p in
  let* w := get_world in
  match fs w !! l with
  | None => raise FileNotFoundError
  | Some KDir => raise IsADirectoryError
  | Some (KFile d) => ret d
  end.

(** [os.remove] *)
Definition os_remove (p : PurePath) : M unit :=
  let* l := namei p in
  let* w := get_world in
  match fs w !! l with
  | None => raise FileNotFoundError
  | Some KDir => raise IsADirectoryError
  | Some (KFile _) => modify (λ w, set_fs (delete l (fs w)) w)
  end.

(** The entries of the directory at [l], with their kinds; as
    [os.scandir] yields them, without the special entries [.] and [..]. *)
Definition children (f : gmap loc kind) (l : loc) : list (pystr * kind) :=
  omap (λ '(k, v),
          match last k with
          | Some n =>
              if decide (k = l ++ [n] ∧ n ≠ dot ∧ n ≠ dotdot)
              then Some (n, v) else None
          | None => None
          end)
       (map_to_list f).

(** [list(os.scandir(p))] *)
Definition os_scandir (p : PurePath) : M (list (pystr * kind)) :=
  let* l := namei p in
  let* w := get_world in
  match fs w !! l with
  | None => raise FileNotFoundError
  | Some (KFile _) => raise NotADirectoryError
  | Some KDir => ret (children (fs w) l)
  end.

(** [shutil.rmtree] on an existing directory. *)
Definition rmtree (p : PurePath) : M unit :=
  let* l := namei p in
  let* w := get_world in
  match fs w !! l with
  | None => raise FileNotFoundError
  | Some (KFile _) => raise NotADirectoryError
  | Some KDir =>
      modify (λ w, set_fs (filter (λ '(k, _), ¬ l `prefix_of` k) (fs w)) w)
  end.

(** *** Library routines over the system calls *)

(** The handler [except OSError: if not exist_ok or not is_dir(): raise]
    of [Path.mkdir] and [os.makedirs]; the first asks [Path.is_dir], the
    second [os.path.isdir]. *)
Definition tolerate_existing (is_dir : PurePath → M bool)
    (self : PurePath) (exist_ok : bool) (e : exn) : M unit :=
  if is_OSError e then
    if exist_ok then
      let* d := is_dir self in
      if d then ret tt else raise e
    else raise e
  else raise e.

(** [Path.mkdir(parents=..., exist_ok=...)], by recursion on the
    components of the path, last one first: the recursive call is the
    one on [self.parent]. *)
Fixpoint Path_mkdir_rev (anch : bool) (rparts : list pystr)
    (parents exist_ok : bool) : M unit :=
  let self := mkPath anch (reverse rparts) in
  try_except (os_mkdir self)
    (λ e, match e with
          | FileNotFoundError =>
              if parents then
                match rparts with
                | [] => raise e
                | _ :: rparent =>
                    Path_mkdir_rev anch rparent true true ;;
                    (* self.mkdir(mode, parents=False, exist_ok=exist_ok) *)
                    try_except (os_mkdir self)
                      (λ e, match e with
                            | FileNotFoundError => raise e
                            | _ => tolerate_existing Path_is_dir self exist_ok e
                            end)
                end
              else raise e
          | _ => tolerate_existing Path_is_dir self exist_ok e
          end).

Definition Path_mkdir (p : PurePath) (parents exist_ok : bool) : M unit :=
  Path_mkdir_rev (anchored p) (reverse (parts p)) parents exist_ok.

(** [Path.write_bytes], [Path.read_bytes] *)
Definition Path_write_bytes (p : PurePath) (data : bytes) : M unit :=
  write_file p data.
Definition Path_read_bytes (p : PurePath) : M bytes := read_file p.

(** [os.makedirs(name, exist_ok=...)], again on the reversed components:
    [head] is the path without its last component [tail]. *)
Fixpoint os_makedirs_rev (anch : bool) (rparts : list pystr)
    (exist_ok : bool) : M unit :=
  let name := mkPath anch (reverse rparts) in
  (match rparts with
      | [] => ret tt
      | _ :: rhead =>
          if anch || negb (bool_decide (rhead = [])) then
            let head := mkPath anch (reverse rhead) in
            let* present := path_exists head in
            if present then ret tt
            else
              try_except (os_makedirs_rev anch rhead exist_ok)
                (λ e, match e with
                      | FileExistsError => ret tt
                      | _ => raise e
                      end)
          else ret tt
      end) ;;
  try_except (os_mkdir name) (tolerate_existing path_isdir name exist_ok).

Definition os_makedirs (p : PurePath) (exist_ok : bool) : M unit :=
  os_makedirs_rev (anchored p) (reverse (parts p)) exist_ok.

(** [os.path.samefile], as [shutil._samefile] uses it: false when either
    path cannot be resolved. *)
Definition samefile (a b : PurePath) : M bool :=
  try_except
    (let* la := namei a in os_stat a ;; let* lb := namei b in os_stat b ;;
     ret (bool_decide (la = lb)))
    (λ e, if is_OSError e then ret false else raise e).

(** [shutil.copyfile] *)
Definition copyfile (src dst : PurePath) : M unit :=
  let* same := samefile src dst in
  if same then raise SameFileError
  else
    let* data := read_file src in
    write_file dst data.

(** [shutil.copy2]: a destination that is a directory receives the file
    under the source's base name. *)
Definition copy2 (src dst : PurePath) : M unit :=
  let* d := path_isdir dst in
  let dst' := if d then path_child dst (path_name src) else dst in
  copyfile src dst'.

(** [shutil.copytree(src, dst, dirs_exist_ok=True)].  Each level lists
    its source directory first, creates the destination, then copies
    entry by entry, collecting the [OSError]s and raising [shutil.Error]
    at the end if there were any.  The recursion depth of the
    interpreter bounds the descent. *)
Fixpoint copytree (depth : nat) (src dst : PurePath) : M unit :=
  match depth with
  | O => raise RecursionError
  | S depth' =>
      let* entries := os_scandir src in
      os_makedirs dst true ;;
      let* errors := foldM
        (λ (errors : bool) (entry : list Z * kind),
           let '(name, k) := entry in
           let srcname := path_child src name in
           let dstname := path_child dst name in
           try_except
             (match k with
                  | KDir => copytree depth' srcname dstname
                  | KFile _ => copy2 srcname dstname
                  end ;;
              ret errors)
             (λ e, if is_OSError e then ret true else raise e))
        false entries in
      if errors then raise ShutilError else ret tt
  end.

(** [sys.getrecursionlimit()] *)
Definition recursion_limit : nat := 1000.

(** [tempfile.mkdtemp(prefix=...)]: draw names until one is free. *)
Fixpoint mkdtemp_from (dir : PurePath) (prefix : pystr)
    (names : list pystr) : M PurePath :=
  match names with
  | [] => modify (set_rng []) ;; raise FileExistsError
  | n :: rest =>
      modify (set_rng rest) ;;
      let file := path_child dir (prefix ++ n) in
      try_except (os_mkdir file ;; ret file)
        (λ e, match e with
              | FileExistsError => mkdtemp_from dir prefix rest
              | _ => raise e
              end)
  end.

Definition mkdtemp (prefix : pystr) : M PurePath := λ w,
  mkdtemp_from (tmpdir w) prefix (rng w) w.

(** [tempfile.mkstemp()]: the same for a file created exclusively. *)
Definition create_excl (p : PurePath) : M unit :=
  let* l := namei p in
  let* w := get_world in
  match fs w !! l with
  | Some _ => raise FileExistsError
  | None => modify (λ w, set_fs (<[l := KFile []]> (fs w)) w)
  end.

Fixpoint mkstemp_from (dir : PurePath) (names : list pystr) : M PurePath :=
  match names with
  | [] => modify (set_rng []) ;; raise FileExistsError
  | n :: rest =>
      modify (set_rng rest) ;;
      let file := path_child dir (py "tmp" ++ n) in
      try_except (create_excl file ;; ret file)
        (λ e, match e with
              | FileExistsError => mkstemp_from dir rest
              | _ => raise e
              end)
  end.

Definition mkstemp : M PurePath := λ w, mkstemp_from (tmpdir w) (rng w) w.

(** [TemporaryDirectory.cleanup]: a directory that is already gone is
    not an error. *)
Definition cleanup (d : PurePath) : M unit :=
  try_except (rmtree d)
    (λ e, match e with
          | FileNotFoundError => ret tt
          | _ => raise e
          end).

(** [with tempfile.TemporaryDirectory() as d: body d]: the directory is
    removed on every way out. *)
Definition with_TemporaryDirectory {A} (body : PurePath → M A) : M A :=
  let* d := mkdtemp (py "tmp") in
  finally (body d) (cleanup d).

(** An argument typed [str | Path]. *)
Inductive path_arg := ArgStr (s : pystr) | ArgPath (p : PurePath).

(** [Path(arg)] *)
Definition arg_Path (a : path_arg) : PurePath :=
  match a with
  | ArgStr s => Path s
  | ArgPath p => p
  end.

(** The truth value of such an argument: the empty string is false. *)
Definition arg_truthy (a : path_arg) : bool :=
  match a with
  | ArgStr s => negb (bool_decide (s = []))
  | ArgPath _ => true
  end.

(** ** [class PathStore] *)
Module PathStore.

Record t := mk { path : PurePath }.

(** [__init__]: [self.path = Path(path)] *)
Definition init (root : path_arg) : t := mk (arg_Path root).

Definition add (self : t) (key : pystr) (data : bytes) : M unit :=
  let file_path := path self </> key in
  Path_mkdir (path_parent file_path) true true ;;
  Path_write_bytes file_path data.

Definition get (self : t) (key : pystr) : M (option bytes) :=
  let file_path := path self </> key in
  let* present := Path_exists file_path in
  if present then
    let* data := Path_read_bytes file_path in
    ret (Some data)
  else ret None.

Definition add_directory (self : t) (key : pystr) (src : PurePath) : M unit :=
  let dst := path self </> key in
  Path_mkdir dst true true ;;
  copytree recursion_limit src dst.

Definition get_directory (self : t) (key : pystr) : M (option PurePath) :=
  let dir_path := path self </> key in
  let* present := Path_exists dir_path in
  if present then ret (Some dir_path) else ret None.

End PathStore.

(** ** [class SymbolStore(PathStore)] *)
Module SymbolStore.

Definition add (self : PathStore.t) (version : pystr) (path : path_arg)
    : M PurePath :=
  let dst := PathStore.path self </> version </> py "symbols" in
  PathStore.add_directory self (path_str dst) (arg_Path path) ;;
  ret dst.

Definition get (self : PathStore.t) (version : pystr) : M (option PurePath) :=
  let p := PathStore.path self </> version </> py "symbols" in
  PathStore.get_directory self (path_str p).

End SymbolStore.

(** ** [class Artifacts]

    A handle is a mutable object.  The getter assigns to a field only as
    its last step, and returns the handle as it is afterwards with its
    result; the setter is run on the handle and the world and leaves both
    behind, whether it returns or raises.  The job identifier is kept as
    [key()] formats it. *)
Module Artifacts.

Record t := mk {
  path_store : PathStore.t;
  _project : pystr;
  _job : pystr;
  _version : option pystr;
  _pipeline : option pystr
}.

Definition init (project job : pystr) (store : PathStore.t) : t :=
  mk store project job None None.

Definition makekey (project job : pystr) : pystr :=
  project ++ slash :: job.

Definition key (self : t) : pystr := makekey (_project self) (_job self).

Definition get (self : t) : M (option PurePath) :=
  PathStore.get_directory (path_store self) (key self ++ py "/artifacts").

Definition add (self : t) (path : path_arg) : M unit :=
  PathStore.add_directory (path_store self) (key self ++ py "/artifacts")
    (arg_Path path).

(** The three text properties. *)
Inductive attr := version | pipeline | project.

Definition attr_name (a : attr) : pystr :=
  match a with
  | version => py "version"
  | pipeline => py "pipeline"
  | project => py "project"
  end.

(** [getattr(self, f"_{attr}")]: [_project] is the field set by
    [__init__]. *)
Definition getattr (self : t) (a : attr) : option pystr :=
  match a with
  | version => _version self
  | pipeline => _pipeline self
  | project => Some (_project self)
  end.

(** [setattr(self, f"_{attr}", value)] *)
Definition setattr (self : t) (a : attr) (value : pystr) : t :=
  match a with
  | version =>
      mk (path_store self) (_project self) (_job self) (Some value) (_pipeline self)
  | pipeline =>
      mk (path_store self) (_project self) (_job self) (_version self) (Some value)
  | project =>
      mk (path_store self) value (_job self) (_version self) (_pipeline self)
  end.

Definition text_key (self : t) (a : attr) : pystr :=
  key self ++ slash :: attr_name a ++ py ".txt".

Definition _get_text_property (self : t) (a : attr) : M (option pystr * t) :=
  match getattr self a with
  | Some value => ret (Some value, self)
  | None =>
      let* data := PathStore.get (path_store self) (text_key self a) in
      match data with
      | None | Some [] => ret (None, self)
      | Some bs =>
          match utf8_decode bs with
          | None => raise UnicodeDecodeError
          | Some text =>
              let value := strip text in
              ret (Some value, setattr self a value)
          end
      end
  end.

Definition _set_text_property (self : t) (a : attr) (value : pystr)
    : world → result unit * (t * world) := λ w,
  match utf8_encode value with
  | None => (Raise UnicodeEncodeError, (self, w))
  | Some bs =>
      (* self.__path_store.add(f"{self.key()}/{attr}.txt", ...) *)
      match PathStore.add (path_store self) (text_key self a) bs w with
      | (Raise e, w') => (Raise e, (self, w'))
      | (Ok _, w') =>
          (* setattr(self, f"_{attr}", value) *)
          (Ok tt, (setattr self a value, w'))
      end
  end.

(** A call of a method of this kind from code that keeps the handle
    in a local variable. *)
Definition call {A} (run : world → result A * (t * world)) : M (A * t) := λ w,
  match run w with
  | (Ok a, (self, w')) => (Ok (a, self), w')
  | (Raise e, (_, w')) => (Raise e, w')
  end.

End Artifacts.

(** ** [class ArtifactStore] *)
Module ArtifactStore.

Record t := mk { path_store : PathStore.t }.

Definition init (root : path_arg) : t :=
  mk (PathStore.init (ArgPath (arg_Path root))).

Definition add (self : t) (project_id job_id : pystr)
    (artifacts_path : option path_arg) : M Artifacts.t :=
  let artifacts := Artifacts.init project_id job_id (path_store self) in
  (* if artifacts_path: *)
  (match artifacts_path with
   | Some path =>
       if arg_truthy path then Artifacts.add artifacts path else ret tt
   | None => ret tt
   end) ;;
  ret artifacts.

Definition get (self : t) (project_id job_id : pystr)
    : M (option Artifacts.t) :=
  let key := Artifacts.makekey project_id job_id in
  let* d := PathStore.get_directory (path_store self) key in
  match d with
  | Some _ => ret (Some (Artifacts.init project_id job_id (path_store self)))
  | None => ret None
  end.

End ArtifactStore.

(** ** [class CrashAnalyzerCLI] *)
Record CrashAnalyzerCLI := mkCLI {
  env : PurePath;
  symbol_store : PathStore.t;
  artifact_store : ArtifactStore.t
}.

(** [CrashAnalyzerCLI(env)] for a given environment directory. *)
Definition CrashAnalyzerCLI_init (env : PurePath) : CrashAnalyzerCLI :=
  mkCLI env
    (PathStore.init (ArgPath (env </> py "symbols")))
    (ArtifactStore.init (ArgPath (env </> py "artifacts"))).

(** ** The collaborators: zip archives and the CI provider *)

(** A member of an archive: the name stored for it and its contents. *)
Record ZipInfo := mkZipInfo { filename : pystr; content : bytes }.

#[global] Instance ZipInfo_eq_dec : EqDecision ZipInfo.
Proof. solve_decision. Defined.

(** A job as the provider reports it; identifiers are kept as [str()]
    prints them. *)
Record Job := mkJob { j_id : pystr; j_name : pystr; j_pipeline_id : pystr }.

#[global] Instance Job_eq_dec : EqDecision Job.
Proof. solve_decision. Defined.

(** The provider client ([gitlab.v4.objects.Project]): job lookup,
    pipeline lookup, the successful jobs of a pipeline and the artifact
    archive of a job. *)
Record Project := mkProject {
  jobs_get : option pystr → result Job;
  pipelines_get : pystr → result pystr;
  pipeline_jobs_list : pystr → result (list Job);
  job_artifacts : Job → result bytes
}.

(** The value a local variable holds, or [UnboundLocalError]. *)
Definition local {A} (var : string) (v : option A) : M A :=
  match v with
  | Some a => ret a
  | None => raise (UnboundLocalError var)
  end.

(** [str(x)] and [f"{x}"] for a value that may be [None]. *)
Definition py_str (x : option pystr) : pystr := default (py "None") x.

Definition sym_suffix : pystr := py ".exe.debug".
Definition zip_suffix : pystr := py ".debug.zip".

Section Resolution.

(** [zipfile] reads the members of an archive from its bytes; [None]
    is [BadZipFile]. *)
Variable read_zip : bytes → option (list ZipInfo).

(** [cli.active_project] *)
Variable active_project : Project.

(** A request to the provider is recorded, then answered. *)
Definition request {A} (c : ci_call) (answer : result A) : M A :=
  modify (log_call c) ;;
  match answer with
  | Ok a => ret a
  | Raise e => raise e
  end.

(** [zipfile.ZipFile(path, "r").infolist()] *)
Definition ZipFile (zip_path : PurePath) : M (list ZipInfo) :=
  let* data := read_file zip_path in
  match read_zip data with
  | Some infos => ret infos
  | None => raise BadZipFile
  end.

(** [ZipFile._extract_member]: the stored name loses its empty, [.]
    and [..] components, is joined to the target directory and
    normalised; missing upper directories are created. *)
Definition extract_member (member : ZipInfo) (targetdir : PurePath) : M unit :=
  let arcparts :=
    filter (λ x, x ≠ [] ∧ x ≠ dot ∧ x ≠ dotdot)
           (split_on slash (filename member)) in
  let targetpath :=
    normpath (mkPath (anchored targetdir) (parts targetdir ++ arcparts)) in
  let upperdirs := path_parent targetpath in
  (if anchored upperdirs || negb (bool_decide (parts upperdirs = [])) then
     let* present := path_exists upperdirs in
     if present then ret tt else os_makedirs upperdirs false
   else ret tt) ;;
  if endswith (filename member) [slash] then
    let* d := path_isdir targetpath in
    if d then ret tt else os_mkdir targetpath
  else write_file targetpath (content member).

(** [ZipFile.extractall] *)
Definition extractall (infos : list ZipInfo) (path : PurePath) : M unit :=
  foldM (λ _ info, extract_member info path) tt infos.

Definition extract_agent_symbols (zip_path output_dir : PurePath) : M unit :=
  let* infos := ZipFile zip_path in
  foldM
    (λ _ info,
       if endswith (filename info) sym_suffix then
         let info' := mkZipInfo (path_name (Path (filename info))) (content info) in
         extract_member info' output_dir
       else ret tt)
    tt infos.

Definition download_job_artifacts (job_id : option pystr)
    (output_dir : PurePath) : M unit :=
  let* job := request (CallJobsGet job_id) (jobs_get active_project job_id) in
  let* tmp_path := mkstemp in
  finally
    (let* data := request (CallJobArtifacts (j_id job))
                    (job_artifacts active_project job) in
     write_file tmp_path data ;;
     let* infos := ZipFile tmp_path in
     extractall infos output_dir)
    (let* present := path_exists tmp_path in
     if present then os_remove tmp_path else ret tt).

Definition add_gitlab_job_artifacts_to_artifact_store
    (store : ArtifactStore.t) (job_id : option pystr) : M Artifacts.t :=
  with_TemporaryDirectory (λ temp_dir,
    download_job_artifacts job_id temp_dir ;;
    let project_id := py "datadog-agent" in
    let job_id := py_str job_id in
    ArtifactStore.add store project_id job_id (Some (ArgStr (path_str temp_dir)))).

Definition get_or_fetch_artifacts (store : ArtifactStore.t)
    (job_id : option pystr) : M Artifacts.t :=
  let project_id := py "datadog-agent" in
  let* artifacts := ArtifactStore.get store project_id (py_str job_id) in
  match artifacts with
  | Some a => ret a
  | None => add_gitlab_job_artifacts_to_artifact_store store job_id
  end.

(** The loop of [get_package_job_id] over the listed jobs. *)
Fixpoint first_named (name : pystr) (jobs : list Job) : option pystr :=
  match jobs with
  | [] => None
  | job :: rest =>
      if decide (j_name job = name) then Some (j_id job)
      else first_named name rest
  end.

Definition get_package_job_id (job_id : pystr)
    (package_job_name : option pystr) : M (option pystr) :=
  let package_job_name :=
    default (py "windows_msi_and_bosh_zip_x64-a7") package_job_name in
  let* job := request (CallJobsGet (Some job_id))
                (jobs_get active_project (Some job_id)) in
  let pipeline_id := j_pipeline_id job in
  let* pipeline := request (CallPipelinesGet pipeline_id)
                     (pipelines_get active_project pipeline_id) in
  let* jobs := request (CallPipelineJobsList pipeline)
                 (pipeline_jobs_list active_project pipeline) in
  ret (first_named package_job_name jobs).

(** [glob.glob(f"{output_dir}/**/*.debug.zip", recursive=True)]: the
    entries below the base directory, through directories whose names
    do not start with a dot, whose own name does not start with a dot
    and ends in [.debug.zip].  The base is read literally. *)
Definition hidden (name : pystr) : bool := bool_decide (head name = Some 46).

Fixpoint through_dirs (f : gmap loc kind) (cur : loc) (rest : list pystr) : bool :=
  match rest with
  | [] => false
  | [name] => negb (hidden name) && endswith name zip_suffix
  | d :: rest' =>
      negb (hidden d) && bool_decide (f !! (cur ++ [d]) = Some KDir)
      && through_dirs f (cur ++ [d]) rest'
  end.

Definition find_debug_zip (output_dir : option PurePath) : M (list pystr) :=
  let text := py_str (path_str <$> output_dir) in
  let base := Path text in
  let* d := path_isdir base in
  if d then
    let* b := namei base in
    let* w := get_world in
    ret (omap (λ '(k, _),
                 if decide (b `prefix_of` k) then
                   let rest := drop (length b) k in
                   if through_dirs (fs w) b rest
                   then Some (text ++ slash :: join_on slash rest)
                   else None
                 else None)
              (map_to_list (fs w)))
  else ret [].

Definition truthy (v : option pystr) : bool :=
  match v with
  | Some (_ :: _) => true
  | _ => false
  end.

Definition get_symbols_for_job_id (cli : CrashAnalyzerCLI) (job_id : pystr)
    : M PurePath :=
  let project_id := py "datadog-agent" in
  (* check if we already have the symbols for this job *)
  let* artifact := ArtifactStore.get (artifact_store cli) project_id job_id in
  let* checked :=
    (* if artifact and artifact.version *)
    match artifact with
    | None => ret (None, false)
    | Some a =>
        let* va := Artifacts._get_text_property a Artifacts.version in
        ret (Some va.2, truthy va.1)
    end in
  let* locals :=
    match checked with
    | (Some a, true) =>
        let* va := Artifacts._get_text_property a Artifacts.version in
        ret (va.1, None)
    | (artifact, _) =>
      (* Need to get the symbols from the package build job in the pipeline *)
      let* package_job_id := get_package_job_id job_id None in
      let* package_artifacts :=
        get_or_fetch_artifacts (artifact_store cli) package_job_id in
      let* dir := Artifacts.get package_artifacts in
      let* zips := find_debug_zip dir in
      match zips with
      | [] => ret (None, None)
      | debug_zip :: _ =>
          let debug_zip := Path debug_zip in
          let version := removesuffix (path_name debug_zip) zip_suffix in
          (* add a version ref so we can look it up faster next time *)
          Artifacts.call
            (Artifacts._set_text_property package_artifacts Artifacts.version
               version) ;;
          let* artifact :=
            match artifact with
            | Some a => ret a
            | None => ArtifactStore.add (artifact_store cli) project_id job_id None
            end in
          Artifacts.call
            (Artifacts._set_text_property artifact Artifacts.version version) ;;
          ret (Some version, Some debug_zip)
      end
    end in
  let* version := local "version" locals.1 in
  let* syms := SymbolStore.get (symbol_store cli) version in
  match syms with
  | Some syms => ret syms
  | None =>
      with_TemporaryDirectory (λ tmp_dir,
        let* debug_zip := local "debug_zip" locals.2 in
        extract_agent_symbols debug_zip tmp_dir ;;
        SymbolStore.add (symbol_store cli) version (ArgStr (path_str tmp_dir)))
  end.

End Resolution.
(** ** Vocabulary of the statements *)

(** What [os.stat] finds at a path: nothing when the path cannot be
    followed. *)
Definition stat_of (w : world) (p : PurePath) : option kind :=
  match resolve w p with
  | Ok l => fs w !! l
  | Raise _ => None
  end.

(** A path within the limits of the system: it encodes, holds no null
    character, is shorter than [PATH_MAX] bytes, and none of its names
    is longer than [NAME_MAX] bytes. *)
Definition fits (p : PurePath) : Prop :=
  check_path p = Ok tt ∧ Forall (λ c, name_too_long c = false) (parts p).

(** The root and the working directory are directories. *)
Definition sane (w : world) : Prop :=
  fs w !! [] = Some KDir ∧ fs w !! cwd w = Some KDir.

(** A computation respects a relation between worlds when every run of
    it, normal or exceptional, ends in a world related to the one it
    started from. *)
Definition respects (R : world → world → Prop) {A} (m : M A) : Prop :=
  ∀ w, R w (m w).2.

(** No request was sent to the CI provider. *)
Definition same_log (w w' : world) : Prop := ci_log w' = ci_log w.

(** The part of a text after its last separator; the whole text when
    it has none. *)
Fixpoint after_last (sep : Z) (s : pystr) : pystr :=
  match s with
  | [] => []
  | c :: r => if decide (c = sep ∨ sep ∈ r) then after_last sep r else s
  end.


(** A debug-symbol file: a member whose name ends in [.exe.debug]. *)
Definition is_symbol_file (info : ZipInfo) : Prop :=
  py ".exe.debug" `suffix_of` filename info.

#[global] Instance is_symbol_file_dec info : Decision (is_symbol_file info).
Proof. unfold is_symbol_file. apply _. Defined.


(** A file can be written under [name] in the directory [dir], found at
    the place [D]: its path is within the limits of the system and no
    directory is in its way. *)
Definition can_write (w : world) (dir : PurePath) (D : loc) (name : pystr) : Prop :=
  fits (path_child dir name) ∧ fs w !! (D ++ [name]) ≠ Some KDir.


(** *** Where an operation may write *)

(** The place a path names, from the working directory [c]: where
    following it ends when every directory on the way exists. *)
Definition lit (c : loc) (p : PurePath) : loc :=
  foldl step (if anchored p then [] else c) (parts p).

(** The places passed on the way to it, itself included. *)
Definition trail (c : loc) (p : PurePath) : list loc :=
  (λ n, foldl step (if anchored p then [] else c) (take n (parts p)))
    <$> seq 0 (S (length (parts p))).

Definition nodots (p : PurePath) : Prop :=
  Forall (λ x, x ≠ dot ∧ x ≠ dotdot) (parts p).

(** One place is the other or lies on the way down to it. *)
Definition comparable (a b : loc) : Prop := a `prefix_of` b ∨ b `prefix_of` a.

(** The working directory stays, and every place whose content changed
    satisfies [P]. *)
Definition within (P : loc → loc → Prop) (w w' : world) : Prop :=
  cwd w' = cwd w ∧ ∀ q, fs w' !! q ≠ fs w !! q → P (cwd w) q.

(** The places on the way to the target [t], and those on the way to
    it or below it. *)
Definition on_way (t : PurePath) (c q : loc) : Prop := q ∈ trail c t.
Definition around (t : PurePath) (c q : loc) : Prop :=
  q ∈ trail c t ∨ lit c t `prefix_of` q.

(** A path that stops on the way to [t]; one that does or that goes on
    below [t] through plain names; and one that goes on below [t]. *)
Definition upto (t p : PurePath) : Prop :=
  anchored p = anchored t ∧ parts p `prefix_of` parts t.
Definition below (t p : PurePath) : Prop :=
  anchored p = anchored t
  ∧ ∃ names, parts p = parts t ++ names
             ∧ Forall (λ x, x ≠ dot ∧ x ≠ dotdot) names.
Definition near (t p : PurePath) : Prop := upto t p ∨ below t p.

(** *** Clients of the path store *)

(** A write to the store. *)
Inductive store_op :=
  | OpAdd (key : pystr) (data : bytes)
  | OpAddDirectory (key : pystr) (src : PurePath).

Definition op_key (op : store_op) : pystr :=
  match op with
  | OpAdd key _ => key
  | OpAddDirectory key _ => key
  end.

Definition run_op (store : PathStore.t) (op : store_op) : M unit :=
  match op with
  | OpAdd key data => PathStore.add store key data
  | OpAddDirectory key src => PathStore.add_directory store key src
  end.

(** The writes of a client, one after the other; the client goes on
    after a write that raised. *)
Fixpoint run_ops (store : PathStore.t) (ops : list store_op) (w : world) : world :=
  match ops with
  | [] => w
  | op :: rest => run_ops store rest (run_op store op w).2
  end.

(** The place of a key of the store. *)
Definition key_place (store : PathStore.t) (c : loc) (key : pystr) : loc :=
  lit c (PathStore.path store </> key).

(** The places a write may create something at: [add] the blob and the
    directories on the way to it, [add_directory] also what lies below
    the directory of its key. *)
Definition touches (store : PathStore.t) (op : store_op) (c q : loc) : Prop :=
  match op with
  | OpAdd key _ => on_way (PathStore.path store </> key) c q
  | OpAddDirectory key _ => around (PathStore.path store </> key) c q
  end.

(** *** Clients of the artifact store *)

(** An identifier that is a single path component. *)
Definition valid_id (s : pystr) : Prop :=
  s ≠ [] ∧ s ≠ dot ∧ s ≠ dotdot ∧ slash ∉ s.

(** The directory of a (project, job) pair. *)
Definition pair_dir (store : ArtifactStore.t) (p j : pystr) : PurePath :=
  PathStore.path (ArtifactStore.path_store store) </> Artifacts.makekey p j.

(** A handle of the store for a pair, whatever its cache holds. *)
Definition handle_of (store : ArtifactStore.t) (p j : pystr) (h : Artifacts.t) : Prop :=
  Artifacts._project h = p ∧ Artifacts._job h = j
  ∧ Artifacts.path_store h = ArtifactStore.path_store store.

(** The states that a client who leaves the [project] property of its
    handles alone can bring the store to.  [added] lists the pairs [add]
    was called for and [held] the pairs the client has a handle for, from
    [add] or from [get].  Handles are used to add artifacts and to set
    the [version] and [pipeline] properties. *)
Inductive reached (store : ArtifactStore.t) :
    list (pystr * pystr) → list (pystr * pystr) → world → Prop :=
  | reached_start w :
      (∀ p j, valid_id p → valid_id j →
              fs w !! lit (cwd w) (pair_dir store p j) = None) →
      reached store [] [] w
  | reached_add added held w p j path h w' :
      reached store added held w →
      valid_id p → valid_id j →
      ArtifactStore.add store p j path w = (Ok h, w') →
      reached store ((p, j) :: added) ((p, j) :: held) w'
  | reached_add_raise added held w p j path e w' :
      reached store added held w →
      valid_id p → valid_id j →
      ArtifactStore.add store p j path w = (Raise e, w') →
      reached store ((p, j) :: added) held w'
  | reached_get added held w p j h w' :
      reached store added held w →
      valid_id p → valid_id j →
      ArtifactStore.get store p j w = (Ok (Some h), w') →
      reached store added ((p, j) :: held) w'
  | reached_handle_add added held w p j h path r w' :
      reached store added held w →
      (p, j) ∈ held → handle_of store p j h →
      Artifacts.add h path w = (r, w') →
      reached store added held w'
  | reached_set added held w p j h a v r h' w' :
      reached store added held w →
      (p, j) ∈ held → handle_of store p j h →
      a ≠ Artifacts.project →
      Artifacts._set_text_property h a v w = (r, (h', w')) →
      reached store added held w'.

(** What holds in every state the client reaches: handles are held for
    pairs that were added, and a pair directory exists only for a pair
    that was added. *)
Definition store_inv (store : ArtifactStore.t)
    (added held : list (pystr * pystr)) (w : world) : Prop :=
  held ⊆ added
  ∧ Forall (λ pj, valid_id pj.1 ∧ valid_id pj.2) held
  ∧ ∀ p j, valid_id p → valid_id j →
           is_Some (fs w !! lit (cwd w) (pair_dir store p j)) → (p, j) ∈ added.

#[global] Instance comparable_dec a b : Decision (comparable a b).
Proof. unfold comparable. apply _. Defined.

#[global] Instance fits_dec p : Decision (fits p).
Proof. unfold fits. apply _. Defined.

#[global] Instance can_write_dec w dir D name : Decision (can_write w dir D name).
Proof. unfold can_write. apply _. Defined.

#[global] Instance on_way_dec t c q : Decision (on_way t c q).
Proof. unfold on_way. apply _. Defined.

#[global] Instance around_dec t c q : Decision (around t c q).
Proof. unfold around. apply _. Defined.

#[global] Instance touches_dec store op c q : Decision (touches store op c q).
Proof. destruct op; apply _. Defined.

#[global] Instance nodots_dec p : Decision (nodots p).
Proof. unfold nodots. apply _. Defined.

#[global] Instance valid_id_dec s : Decision (valid_id s).
Proof. unfold valid_id. apply _. Defined.

(** Directories stay directories. *)
Definition dirs_kept (w w' : world) : Prop :=
  cwd w' = cwd w ∧ ∀ q, fs w !! q = Some KDir → fs w' !! q = Some KDir.

(** A path as [Path] builds them: no empty or [.] component, no slash
    inside a component. *)
Definition parsed (p : PurePath) : Prop :=
  Forall (λ c, keeps c = true ∧ slash ∉ c) (parts p).

(** ** Concrete sessions

    A small machine, a provider and archives on which the statements
    below are exercised. *)

(** A directory tree given by its paths. *)
Definition fs_of (entries : list (string * kind)) : gmap loc kind :=
  list_to_map ((λ e, (parts (Path (py e.1)), e.2)) <$> entries).

(** A machine with [/tmp] and a home directory, working in [/home]. *)
Definition machine (entries : list (string * kind)) : world :=
  World (fs_of ([("/", KDir); ("/tmp", KDir); ("/home", KDir)] ++ entries))
        [py "home"] (Path (py "/tmp"))
        [py "a1"; py "b2"; py "c3"; py "d4"; py "e5"; py "f6"] [].

(** Archives are told apart by their bytes: [[1]] is the artifact
    archive of the package job, [[2]] the debug-symbol archive in it. *)
Definition demo_unzip (b : bytes) : option (list ZipInfo) :=
  if decide (b = [1]) then
    Some [mkZipInfo (py "pkg/") [];
          mkZipInfo (py "pkg/agent-7.50.0.debug.zip") [2];
          mkZipInfo (py "pkg/crash.dmp") [7]]
  else if decide (b = [2]) then
    Some [mkZipInfo (py "a/b/c/agent.exe.debug") [9; 9];
          mkZipInfo (py "readme.txt") [3];
          mkZipInfo (py "x/agent.exe.debug") [8];
          mkZipInfo (py "bin/process-agent.exe.debug") [5]]
  else None.

(** The same, but the debug-symbol archive cannot be read. *)
Definition corrupt_unzip (b : bytes) : option (list ZipInfo) :=
  if decide (b = [1]) then demo_unzip b else None.

Definition job_J1 : Job := mkJob (py "J1") (py "tests_windows-x64") (py "PL").
Definition job_P1 : Job :=
  mkJob (py "P1") (py "windows_msi_and_bosh_zip_x64-a7") (py "PL").

(** A provider whose pipeline [PL] ran the given jobs. *)
Definition provider (listing : list Job) : Project :=
  mkProject
    (λ j, if decide (j = Some (py "J1")) then Ok job_J1
          else if decide (j = Some (py "P1")) then Ok job_P1
          else Raise (GitlabError 404))
    (λ p, if decide (p = py "PL") then Ok p else Raise (GitlabError 404))
    (λ p, if decide (p = py "PL") then Ok listing else Raise (GitlabError 404))
    (λ j, if decide (j = job_P1) then Ok [1] else Raise (GitlabError 404)).

Definition demo_project : Project := provider [job_J1; job_P1].

(** A pipeline in which the package job did not complete. *)
Definition lonely_project : Project := provider [job_J1].

Definition demo_cli : CrashAnalyzerCLI :=
  CrashAnalyzerCLI_init (Path (py "/home/.agent-crash-analyzer")).

(** An empty cache. *)
Definition empty_cache : world := machine [].

(** A cache that knows the version of job [J1] and holds no symbols. *)
Definition version_only_cache : world :=
  machine [("/home/.agent-crash-analyzer", KDir);
           ("/home/.agent-crash-analyzer/artifacts", KDir);
           ("/home/.agent-crash-analyzer/artifacts/datadog-agent", KDir);
           ("/home/.agent-crash-analyzer/artifacts/datadog-agent/J1", KDir);
           ("/home/.agent-crash-analyzer/artifacts/datadog-agent/J1/version.txt",
            KFile (py "agent-7.50.0"))].

(** A Symbol Store whose root is a relative path, and a directory of
    extracted symbols to add to it. *)
Definition relative_store : PathStore.t := PathStore.init (ArgStr (py "store")).

Definition symbols_to_add : world :=
  machine [("/tmp/src", KDir); ("/tmp/src/agent.exe.debug", KFile [8])].

(** A path store for blobs. *)
Definition blob_store : PathStore.t := PathStore.init (ArgStr (py "/home/store")).



(** The debug-symbol archive and an empty directory to extract it to. *)
Definition extraction_site : world :=
  machine [("/tmp/agent-7.50.0.debug.zip", KFile [2]); ("/tmp/out", KDir)].

(** A blob store in which a directory sits where the version of job
    [J1] is to be written. *)
Definition blocked_store : world :=
  machine [("/home/store", KDir);
           ("/home/store/datadog-agent", KDir);
           ("/home/store/datadog-agent/J1", KDir);
           ("/home/store/datadog-agent/J1/version.txt", KDir)].

(** * Properties *)

(** ** Text, bytes and paths *)

Example Path_ex1 : Path (py "/a//b/./c/../d/") =
  mkPath true [py "a"; py "b"; py "c"; dotdot; py "d"].
Proof. reflexivity. Qed.

Example joinpath_ex1 :
  path_str (Path (py "store") </> py "store/1.0/symbols") = py "store/store/1.0/symbols".
Proof. reflexivity. Qed.

Example joinpath_ex2 :
  path_str (Path (py "/store") </> py "/store/1.0/symbols") = py "/store/1.0/symbols".
Proof. reflexivity. Qed.

Example strip_ex1 : strip (py " 7.50.0 ") = py "7.50.0".
Proof. reflexivity. Qed.

Example utf8_ex1 : utf8_encode [233; 8364; 128512] = Some [195; 169; 226; 130; 172; 240; 159; 152; 128].
Proof. reflexivity. Qed.

Example utf8_ex2 : utf8_decode [195; 169; 226; 130; 172; 240; 159; 152; 128] = Some [233; 8364; 128512].
Proof. reflexivity. Qed.
Lemma utf8_decode_char_app c bs rest :
  utf8_encode_char c = Some bs →
  utf8_decode (bs ++ rest) = cons c <$> utf8_decode rest.
Proof.
  unfold utf8_encode_char. intros H.
  repeat case_decide; simplify_eq; simpl app.
  - simpl. rewrite decide_True by lia. done.
  - cbn [utf8_decode]. 
    rewrite decide_False by (Z.div_mod_to_equations; lia).
    rewrite decide_True by (Z.div_mod_to_equations; lia).
    unfold is_cont. rewrite bool_decide_eq_true_2 by (Z.div_mod_to_equations; lia).
    f_equal. f_equal. Z.div_mod_to_equations; lia.
  - cbn [utf8_decode]. 
    rewrite decide_False by (Z.div_mod_to_equations; lia).
    rewrite decide_False by (Z.div_mod_to_equations; lia).
    rewrite decide_True by (Z.div_mod_to_equations; lia).
    unfold is_cont. 
    replace ((224 + c / 4096 - 224) * 4096 + (128 + (c / 64) `mod` 64 - 128) * 64 + (128 + c `mod` 64 - 128)) with c by (Z.div_mod_to_equations; lia).
    rewrite !bool_decide_eq_true_2 by (Z.div_mod_to_equations; lia).
    rewrite bool_decide_eq_false_2 by lia. done.
  - cbn [utf8_decode]. 
    rewrite decide_False by (Z.div_mod_to_equations; lia).
    rewrite decide_False by (Z.div_mod_to_equations; lia).
    rewrite decide_False by (Z.div_mod_to_equations; lia).
    rewrite decide_True by (Z.div_mod_to_equations; lia).
    unfold is_cont. 
    replace ((240 + c / 262144 - 240) * 262144 + (128 + (c / 4096) `mod` 64 - 128) * 4096 + (128 + (c / 64) `mod` 64 - 128) * 64 + (128 + c `mod` 64 - 128)) with c by (Z.div_mod_to_equations; lia).
    rewrite !bool_decide_eq_true_2 by (Z.div_mod_to_equations; lia).
    done.
Qed.

Lemma utf8_roundtrip s bs : utf8_encode s = Some bs → utf8_decode bs = Some s.
Proof.
  revert bs. induction s as [|c s IH]; intros bs H; simpl in H.
  - by simplify_eq.
  - destruct (utf8_encode_char c) as [cb|] eqn:Hc; [|done].
    destruct (utf8_encode s) as [rest|] eqn:Hs; [|done].
    simplify_eq. rewrite (utf8_decode_char_app _ _ _ Hc), (IH _ eq_refl). done.
Qed.

Lemma utf8_encode_nonempty s bs : utf8_encode s = Some bs → s ≠ [] → bs ≠ [].
Proof.
  destruct s as [|c s]; [done|]. simpl. intros H _.
  destruct (utf8_encode_char c) as [cb|] eqn:Hc; [|done].
  destruct (utf8_encode s) as [rest|]; [|done]. simplify_eq.
  unfold utf8_encode_char in Hc. repeat case_decide; by simplify_eq.
Qed.

Lemma lstrip_id s : (∀ c, head s = Some c → isspace c = false) → lstrip s = s.
Proof. destruct s as [|c r]; [done|]. simpl. intros H. by rewrite (H c eq_refl). Qed.

Lemma head_reverse {A} (l : list A) : head (reverse l) = last l.
Proof.
  induction l as [|a l IH] using rev_ind; [done|].
  by rewrite reverse_snoc, last_snoc.
Qed.

Lemma strip_id s :
  (∀ c, head s = Some c → isspace c = false) →
  (∀ c, last s = Some c → isspace c = false) →
  strip s = s.
Proof.
  intros Hh Hl. unfold strip, rstrip.
  rewrite (lstrip_id (reverse s)), reverse_involutive.
  - by apply lstrip_id.
  - intros c. rewrite head_reverse. apply Hl.
Qed.

(** ** Path resolution and the system calls *)

Lemma walk_raise_os f cur cs e : walk f cur cs = Raise e → is_OSError e = true.
Proof.
  revert cur. induction cs as [|c cs IH]; intros cur; simpl; [done|].
  destruct (f !! cur) as [[]|]; try (by intros [= <-]).
  destruct (name_too_long c); eauto. by intros [= <-].
Qed.

(** The errors that following a path can end in. *)
Lemma walk_raise_cases f cur cs e :
  walk f cur cs = Raise e →
  e = FileNotFoundError ∨ e = NotADirectoryError ∨ e = OSError ENAMETOOLONG.
Proof.
  revert cur. induction cs as [|c cs IH]; intros cur; simpl; [done|].
  destruct (f !! cur) as [[]|]; try (intros [= <-]; by eauto).
  destruct (name_too_long c); eauto. intros [= <-]; by eauto.
Qed.

Lemma walk_snoc f cur ps c l :
  walk f cur (ps ++ [c]) = Ok l →
  ∃ d, walk f cur ps = Ok d ∧ f !! d = Some KDir ∧ l = step d c.
Proof.
  revert cur. induction ps as [|a ps IH]; intros cur; simpl.
  - destruct (f !! cur) as [[]|] eqn:E; try done.
    destruct (name_too_long c); [done|]. intros [= <-]. eauto.
  - destruct (f !! cur) as [[]|]; try done.
    destruct (name_too_long a); [done|]. apply IH.
Qed.

(** Following a path ends at the place it names. *)
Lemma walk_place f cur cs l : walk f cur cs = Ok l → l = foldl step cur cs.
Proof.
  revert cur. induction cs as [|c cs IH]; intros cur; simpl; [by intros [= <-]|].
  destruct (f !! cur) as [[]|]; try done.
  destruct (name_too_long c); [done|]. apply IH.
Qed.



(** Writing something at a place that is not a directory does not change
    how paths are followed. *)
Lemma walk_insert_nondir f cur cs l l0 k :
  f !! l0 ≠ Some KDir →
  walk f cur cs = Ok l →
  walk (<[l0 := k]> f) cur cs = Ok l.
Proof.
  intros Hl0. revert cur. induction cs as [|c cs IH]; intros cur; simpl; [done|].
  destruct (f !! cur) as [[]|] eqn:E; try done.
  intros H. rewrite lookup_insert_ne by (intros ->; congruence).
  rewrite E. destruct (name_too_long c); [done|]. by apply IH.
Qed.

Lemma resolve_walk w p l :
  resolve w p = Ok l → walk (fs w) (start w p) (parts p) = Ok l.
Proof. unfold resolve. by destruct (check_path p). Qed.

Lemma resolve_check w p l : resolve w p = Ok l → check_path p = Ok tt.
Proof. unfold resolve. by destruct (check_path p) as [[]|]. Qed.

Lemma resolve_checked w p :
  check_path p = Ok tt → resolve w p = walk (fs w) (start w p) (parts p).
Proof. unfold resolve. by intros ->. Qed.


(** The errors that resolving a path can end in. *)
Lemma resolve_raise_cases w p e :
  resolve w p = Raise e →
  e = FileNotFoundError ∨ e = NotADirectoryError ∨ e = OSError ENAMETOOLONG
  ∨ e = ValueError ∨ e = UnicodeEncodeError.
Proof.
  unfold resolve, check_path. destruct (fsencode _).
  - repeat case_bool_decide; try (intros [= <-]; by eauto 6).
    intros Hw. apply walk_raise_cases in Hw as [->|[->| ->]]; by eauto 6.
  - intros [= <-]; by eauto 6.
Qed.

Lemma resolve_raise_caught w p e :
  resolve w p = Raise e → is_OSError e || is_ValueError e = true.
Proof.
  intros H. by apply resolve_raise_cases in H as [->|[->|[->|[->| ->]]]].
Qed.

(** Only a name or a path that is too long makes resolution fail for a
    reason other than a missing entry. *)
Lemma resolve_fits_raise w p e :
  fits p → resolve w p = Raise e →
  e = FileNotFoundError ∨ e = NotADirectoryError.
Proof.
  intros [Hc Hn]. rewrite (resolve_checked _ _ Hc).
  generalize (start w p). induction Hn as [|c cs Hc' _ IH]; intros cur; simpl; [done|].
  destruct (fs w !! cur) as [[]|]; try (intros [= <-]; by eauto).
  rewrite Hc'. apply IH.
Qed.

Lemma resolve_set_fs w f p :
  resolve (set_fs f w) p
  = match check_path p with
    | Ok _ => walk f (start w p) (parts p)
    | Raise e => Raise e
    end.
Proof. done. Qed.

Lemma resolve_insert_nondir w p l l0 k :
  fs w !! l0 ≠ Some KDir →
  resolve w p = Ok l →
  resolve (set_fs (<[l0 := k]> (fs w)) w) p = Ok l.
Proof.
  intros Hl0 H. rewrite resolve_set_fs, (resolve_check _ _ _ H).
  by apply walk_insert_nondir, resolve_walk.
Qed.

Lemma resolve_place w p l :
  resolve w p = Ok l → l = foldl step (start w p) (parts p).
Proof. intros H. eapply walk_place, resolve_walk, H. Qed.

Lemma fsencode_app a b :
  fsencode (a ++ b)
  = match fsencode a, fsencode b with
    | Some x, Some y => Some (x ++ y)
    | _, _ => None
    end.
Proof.
  induction a as [|c a IH]; simpl.
  - by destruct (fsencode b).
  - rewrite IH. destruct (fsencode_char c), (fsencode a), (fsencode b); try done.
    by rewrite (assoc_L (++)).
Qed.

(** A path passes the checks when a longer one does. *)
Lemma check_text_prefix (s t : pystr) bs :
  fsencode (s ++ t) = Some bs →
  ∃ bs', fsencode s = Some bs' ∧ bs' `prefix_of` bs.
Proof.
  rewrite fsencode_app. destruct (fsencode s) as [x|], (fsencode t) as [y|]; try done.
  intros [= <-]. exists x. split; [done|]. by apply prefix_app_r.
Qed.

Lemma join_on_snoc sep l x :
  l ≠ [] → join_on sep (l ++ [x]) = join_on sep l ++ sep :: x.
Proof.
  induction l as [|a l IH]; [done|]. intros _. destruct l as [|b l]; [done|].
  change (join_on sep ((a :: b :: l) ++ [x])) with (a ++ sep :: join_on sep ((b :: l) ++ [x])).
  rewrite IH by done. simpl. by rewrite <-(assoc_L (++)).
Qed.

Lemma check_path_parent p : check_path p = Ok tt → check_path (path_parent p) = Ok tt.
Proof.
  destruct p as [a ps]. destruct ps as [|c qs _] using rev_ind; [done|].
  unfold path_parent. simpl. rewrite removelast_last.
  assert (path_str (mkPath a qs) = dot
          ∨ ∃ t, path_str (mkPath a (qs ++ [c])) = path_str (mkPath a qs) ++ t) as [Hd|[t Ht]].
  { destruct qs as [|q qs].
    - destruct a; [right; by exists c|by left].
    - right. exists (slash :: c).
      assert (∀ l, l ≠ [] → path_str (mkPath a l)
                = (if a then [slash] else []) ++ join_on slash l) as Hstr
        by (intros [|? ?] ?; by destruct a).
      rewrite !Hstr by by destruct qs.
      rewrite (join_on_snoc slash (q :: qs) c) by done.
      by rewrite (assoc_L (++)). }
  - intros _. unfold check_path. rewrite Hd. reflexivity.
  - unfold check_path. rewrite Ht.
    destruct (fsencode (_ ++ t)) as [bs|] eqn:E; [|done].
    apply check_text_prefix in E as (bs' & -> & Hpre).
    repeat case_bool_decide; try done; exfalso.
    all: first [ apply prefix_length in Hpre; lia
               | destruct Hpre as [k ->];
                 match goal with H : ¬ (0 ∈ _ ++ _) |- _ => apply H end;
                 apply elem_of_app; by left ].
Qed.

Lemma resolve_parent w p d c :
  resolve w (mkPath (anchored p) (parts p ++ [c])) = Ok d →
  ∃ l, resolve w p = Ok l ∧ fs w !! l = Some KDir ∧ d = step l c.
Proof.
  intros H. pose proof (resolve_check _ _ _ H) as Hc.
  apply check_path_parent in Hc. unfold path_parent in Hc. simpl in Hc.
  rewrite removelast_last in Hc. apply resolve_walk in H. simpl in H.
  change (start w (mkPath (anchored p) _)) with (start w p) in H.
  apply walk_snoc in H as (l & Hl & Hd & ->). exists l.
  unfold resolve. destruct p. simpl in *. by rewrite Hc.
Qed.

Lemma os_stat_eq p w :
  os_stat p w
  = (match resolve w p with
     | Ok l => match fs w !! l with
               | Some k => Ok k
               | None => Raise FileNotFoundError
               end
     | Raise e => Raise e
     end, w).
Proof.
  unfold os_stat, bind, namei, get_world.
  destruct (resolve w p) as [l|e]; [|done]. by destruct (fs w !! l).
Qed.

Lemma path_exists_eq p w :
  path_exists p w = (Ok (bool_decide (is_Some (stat_of w p))), w).
Proof.
  unfold path_exists, try_except, bind. rewrite os_stat_eq. unfold stat_of.
  destruct (resolve w p) as [l|e] eqn:Hw.
  - by destruct (fs w !! l) eqn:E.
  - by rewrite (resolve_raise_caught _ _ _ Hw).
Qed.

Lemma path_isdir_eq p w :
  path_isdir p w = (Ok (bool_decide (stat_of w p = Some KDir)), w).
Proof.
  unfold path_isdir, try_except, bind. rewrite os_stat_eq. unfold stat_of.
  destruct (resolve w p) as [l|e] eqn:Hw.
  - destruct (fs w !! l) as [k|] eqn:E; [|done].
    unfold ret. do 2 f_equal. apply bool_decide_ext. naive_solver.
  - by rewrite (resolve_raise_caught _ _ _ Hw).
Qed.

(** [Path.exists] and [Path.is_dir] answer like [os.path.exists] and
    [os.path.isdir], or raise [OSError] for a name or a path that is too
    long. *)
Lemma Path_exists_eq p w :
  Path_exists p w
  = (match resolve w p with
     | Raise (OSError n) => Raise (OSError n)
     | _ => Ok (bool_decide (is_Some (stat_of w p)))
     end, w).
Proof.
  unfold Path_exists, try_except, bind. rewrite os_stat_eq. unfold stat_of.
  destruct (resolve w p) as [l|e] eqn:Hw.
  - by destruct (fs w !! l) eqn:E.
  - apply resolve_raise_cases in Hw. by destruct Hw as [->|[->|[->|[->| ->]]]].
Qed.

Lemma Path_is_dir_eq p w :
  Path_is_dir p w
  = (match resolve w p with
     | Raise (OSError n) => Raise (OSError n)
     | _ => Ok (bool_decide (stat_of w p = Some KDir))
     end, w).
Proof.
  unfold Path_is_dir, try_except, bind. rewrite os_stat_eq. unfold stat_of.
  destruct (resolve w p) as [l|e] eqn:Hw.
  - destruct (fs w !! l) as [k|] eqn:E; [|done].
    unfold ret. do 2 f_equal. apply bool_decide_ext. naive_solver.
  - apply resolve_raise_cases in Hw. by destruct Hw as [->|[->|[->|[->| ->]]]].
Qed.

Lemma Path_exists_fits p w :
  fits p → Path_exists p w = (Ok (bool_decide (is_Some (stat_of w p))), w).
Proof.
  intros Hf. rewrite Path_exists_eq.
  destruct (resolve w p) as [l|e] eqn:Hw; [done|].
  by destruct (resolve_fits_raise _ _ _ Hf Hw) as [-> | ->].
Qed.

Lemma Path_exists_stat p w k :
  stat_of w p = Some k → Path_exists p w = (Ok true, w).
Proof.
  intros Hs. rewrite Path_exists_eq. unfold stat_of in *.
  destruct (resolve w p); [|done]. by rewrite Hs, bool_decide_eq_true_2 by eauto.
Qed.

Lemma Path_is_dir_stat p w :
  stat_of w p = Some KDir → Path_is_dir p w = (Ok true, w).
Proof.
  intros Hs. rewrite Path_is_dir_eq. unfold stat_of in *.
  destruct (resolve w p); [|done]. by rewrite Hs, bool_decide_eq_true_2.
Qed.

Lemma Path_is_dir_inv p w b w' :
  Path_is_dir p w = (Ok b, w') →
  w' = w ∧ b = bool_decide (stat_of w p = Some KDir).
Proof.
  rewrite Path_is_dir_eq. destruct (resolve w p) as [l|[]]; by intros [= <- <-].
Qed.

Lemma write_file_inv p d w w' :
  write_file p d w = (Ok tt, w') →
  ∃ l, resolve w p = Ok l
       ∧ fs w !! l ≠ Some KDir
       ∧ w' = set_fs (<[l := KFile d]> (fs w)) w.
Proof.
  unfold write_file, bind, namei, get_world, modify, raise.
  destruct (resolve w p) as [l|e] eqn:Hw; [|done].
  destruct (fs w !! l) as [[]|] eqn:E; try done; intros [= <-];
    exists l; rewrite E; done.
Qed.

Lemma write_file_ok p d w l :
  resolve w p = Ok l →
  fs w !! l ≠ Some KDir →
  write_file p d w = (Ok tt, set_fs (<[l := KFile d]> (fs w)) w).
Proof.
  intros Hw Hl. unfold write_file, bind, namei, get_world, modify, raise.
  rewrite Hw. destruct (fs w !! l) as [[]|]; done.
Qed.

Lemma read_file_ok p w l d :
  resolve w p = Ok l →
  fs w !! l = Some (KFile d) →
  read_file p w = (Ok d, w).
Proof.
  intros Hw Hl. unfold read_file, bind, namei, get_world. by rewrite Hw, Hl.
Qed.

Lemma read_file_inv p w d w' :
  read_file p w = (Ok d, w') →
  w' = w ∧ ∃ l, resolve w p = Ok l ∧ fs w !! l = Some (KFile d).
Proof.
  unfold read_file, bind, namei, get_world, raise, ret.
  destruct (resolve w p) as [l|e] eqn:Hw; [|done].
  destruct (fs w !! l) as [[]|] eqn:E; try done. intros [= <- <-]. eauto.
Qed.

Lemma os_mkdir_inv p w r w' :
  os_mkdir p w = (r, w') →
  match r with
  | Ok _ => ∃ l, resolve w p = Ok l
                 ∧ fs w !! l = None
                 ∧ w' = set_fs (<[l := KDir]> (fs w)) w
  | Raise e => w' = w
  end.
Proof.
  unfold os_mkdir, bind, namei, get_world, modify, raise.
  destruct (resolve w p) as [l|e] eqn:Hw.
  - destruct (fs w !! l) eqn:E; intros [= <- <-]; eauto.
  - by intros [= <- <-].
Qed.

Lemma os_mkdir_exists p w :
  is_Some (stat_of w p) → os_mkdir p w = (Raise FileExistsError, w).
Proof.
  unfold stat_of, os_mkdir, bind, namei, get_world, raise.
  destruct (resolve w p) as [l|e]; [|by intros [? ?]].
  by intros [k ->].
Qed.

Lemma stat_of_set_fs_insert w p l k l' :
  fs w !! l ≠ Some KDir →
  resolve w p = Ok l' →
  stat_of (set_fs (<[l := k]> (fs w)) w) p = <[l := k]> (fs w) !! l'.
Proof.
  intros Hl Hw. unfold stat_of.
  by rewrite (resolve_insert_nondir _ _ _ _ _ Hl Hw).
Qed.

Lemma tolerate_existing_inv self e w w' :
  tolerate_existing Path_is_dir self true e w = (Ok tt, w') →
  w' = w ∧ stat_of w self = Some KDir.
Proof.
  unfold tolerate_existing, bind, raise, ret.
  destruct (is_OSError e); [|done].
  destruct (Path_is_dir self w) as [[[]|e'] w1] eqn:Hd; try done.
  apply Path_is_dir_inv in Hd as [-> Hd]. intros [= <-].
  symmetry in Hd. by apply bool_decide_eq_true in Hd.
Qed.

Lemma tolerate_existing_os_inv self e w w' :
  tolerate_existing path_isdir self true e w = (Ok tt, w') →
  w' = w ∧ stat_of w self = Some KDir.
Proof.
  unfold tolerate_existing, bind, raise, ret.
  destruct (is_OSError e); [|done].
  rewrite path_isdir_eq. case_bool_decide; [|done]. by intros [= <-].
Qed.

Lemma os_mkdir_ok_stat p w w' :
  os_mkdir p w = (Ok tt, w') → stat_of w' p = Some KDir.
Proof.
  intros H. apply os_mkdir_inv in H as (l & Hw & Hl & ->).
  rewrite (stat_of_set_fs_insert _ _ _ _ l); [|congruence|done].
  apply lookup_insert_eq.
Qed.

(** A successful [mkdir(exist_ok=True)] leaves a directory at the path. *)
Lemma Path_mkdir_isdir p parents w w' :
  Path_mkdir p parents true w = (Ok tt, w') → stat_of w' p = Some KDir.
Proof.
  unfold Path_mkdir.
  assert (p = mkPath (anchored p) (reverse (reverse (parts p)))) as Hp
    by (rewrite reverse_involutive; by destruct p).
  revert Hp. generalize (reverse (parts p)) as rp. intros rp ->. simpl.
  assert (∀ w w', try_except (os_mkdir (mkPath (anchored p) (reverse rp)))
            (λ e, match e with
                  | FileNotFoundError => raise e
                  | _ => tolerate_existing Path_is_dir
                           (mkPath (anchored p) (reverse rp)) true e
                  end) w = (Ok tt, w') →
          stat_of w' (mkPath (anchored p) (reverse rp)) = Some KDir) as Hretry.
  { clear. intros w w'. unfold try_except.
    destruct (os_mkdir _ w) as [[[]|e] w1] eqn:Hm.
    - intros [= <-]. by eapply os_mkdir_ok_stat.
    - destruct e; try done; intros H; by apply tolerate_existing_inv in H as [-> ?]. }
  destruct rp as [|c rp]; simpl; unfold try_except at 1.
  - destruct (os_mkdir _ w) as [[[]|e] w1] eqn:Hm.
    + intros [= <-]. by eapply os_mkdir_ok_stat.
    + destruct e, parents; try done; intros H;
        by apply tolerate_existing_inv in H as [-> ?].
  - destruct (os_mkdir _ w) as [[[]|e] w1] eqn:Hm.
    + intros [= <-]. by eapply os_mkdir_ok_stat.
    + destruct e, parents; try done;
        try (intros H; by apply tolerate_existing_inv in H as [-> ?]).
      unfold bind at 1.
      destruct (Path_mkdir_rev _ _ _ _ w1) as [[[]|e] w2]; [|done].
      apply Hretry.
Qed.

Lemma Path_mkdir_existing p parents w :
  stat_of w p = Some KDir → Path_mkdir p parents true w = (Ok tt, w).
Proof.
  intros Hs. unfold Path_mkdir.
  assert (os_mkdir (mkPath (anchored p) (reverse (reverse (parts p)))) w
          = (Raise FileExistsError, w)) as Hm.
  { rewrite reverse_involutive. destruct p as [a ps]. simpl in *.
    apply os_mkdir_exists. by rewrite Hs. }
  assert (tolerate_existing Path_is_dir
            (mkPath (anchored p) (reverse (reverse (parts p)))) true
            FileExistsError w = (Ok tt, w)) as Ht.
  { rewrite reverse_involutive. destruct p as [a ps]. simpl in *.
    unfold tolerate_existing, bind. simpl. by rewrite Path_is_dir_stat. }
  destruct (reverse (parts p)) as [|c rp]; simpl; unfold try_except;
    simpl in Hm; rewrite Hm; exact Ht.
Qed.

(** ** The path store *)

Lemma stat_of_parent_of_walk w p l :
  sane w →
  resolve w p = Ok l →
  fs w !! l ≠ Some KDir →
  stat_of w (path_parent p) = Some KDir.
Proof.
  intros [Hroot Hcwd] Hw Hl. unfold stat_of, path_parent.
  destruct p as [a ps]. simpl. destruct ps as [|c ps _] using rev_ind.
  - simpl. rewrite Hw. apply resolve_walk in Hw. simpl in Hw.
    injection Hw as <-. exfalso. apply Hl. unfold start. by destruct a.
  - rewrite removelast_last.
    apply (resolve_parent w (mkPath a ps)) in Hw as (d & -> & Hd & _). done.
Qed.

Lemma PathStore_get_after_add store k b w w' :
  PathStore.add store k b w = (Ok tt, w') →
  PathStore.get store k w' = (Ok (Some b), w')
  ∧ path_isdir (path_parent (PathStore.path store </> k)) w' = (Ok true, w').
Proof.
  set (fp := PathStore.path store </> k).
  unfold PathStore.add, bind. fold fp.
  destruct (Path_mkdir _ _ _ w) as [[[]|e] w1] eqn:Hmk; [|done].
  intros Hwr. apply write_file_inv in Hwr as (l & Hw & Hl & ->).
  apply Path_mkdir_isdir in Hmk.
  split.
  - unfold PathStore.get, bind. fold fp.
    erewrite Path_exists_stat
      by (rewrite (stat_of_set_fs_insert _ _ _ _ l Hl Hw); apply lookup_insert_eq).
    unfold Path_read_bytes.
    erewrite read_file_ok; [done| |apply lookup_insert_eq].
    by apply resolve_insert_nondir.
  - rewrite path_isdir_eq. rewrite bool_decide_eq_true_2; [done|].
    unfold stat_of in Hmk.
    destruct (resolve w1 (path_parent fp)) as [d|] eqn:Hd; [|done].
    rewrite (stat_of_set_fs_insert _ _ _ _ d Hl Hd).
    rewrite lookup_insert_ne; [done|]. intros <-. by rewrite Hmk in Hl.
Qed.

Lemma PathStore_add_over_blob store k b b0 w :
  sane w →
  PathStore.get store k w = (Ok (Some b0), w) →
  ∃ w', PathStore.add store k b w = (Ok tt, w').
Proof.
  set (fp := PathStore.path store </> k).
  intros Hsane Hget.
  assert (∃ l, resolve w fp = Ok l
               ∧ fs w !! l = Some (KFile b0)) as (l & Hw & Hl).
  { revert Hget. unfold PathStore.get, bind. fold fp. rewrite Path_exists_eq.
    assert (stat_of w fp = None → ¬ is_Some (stat_of w fp)) as Hno
      by (intros ->; by intros [? ?]).
    destruct (resolve w fp) as [l0|e0] eqn:Hres;
      [|destruct e0; try done;
        rewrite bool_decide_eq_false_2
          by (apply Hno; unfold stat_of; by rewrite Hres); done].
    case_bool_decide; [|done].
    unfold Path_read_bytes.
    destruct (read_file fp w) as [[d|e] w1] eqn:Hr; [|done].
    apply read_file_inv in Hr as [-> (l & Hl1 & Hl2)]. intros [= ->].
    rewrite Hres in Hl1. eauto. }
  exists (set_fs (<[l := KFile b]> (fs w)) w).
  unfold PathStore.add, bind. fold fp.
  rewrite Path_mkdir_existing.
  - apply write_file_ok; [done|congruence].
  - eapply stat_of_parent_of_walk; [done..|congruence].
Qed.

(** C6. A blob read back after [add] is the blob that was written: when
    [add(k, b)] returns, [get(k)] returns exactly [b] and the parent
    directory of the blob exists; and the blob now at the key can always
    be written over, the new blob replacing it. *)
Theorem PathStore_add_get_roundtrip (store : PathStore.t) (k : pystr)
    (b : bytes) (w w' : world) :
  PathStore.add store k b w = (Ok tt, w') →
  PathStore.get store k w' = (Ok (Some b), w')
  ∧ path_isdir (path_parent (PathStore.path store </> k)) w' = (Ok true, w')
  ∧ (∀ b', sane w' →
       ∃ w'', PathStore.add store k b' w' = (Ok tt, w'')
              ∧ PathStore.get store k w'' = (Ok (Some b'), w'')).
Proof.
  intros Hadd.
  destruct (PathStore_get_after_add _ _ _ _ _ Hadd) as [Hget Hdir].
  split_and!; [done..|].
  intros b' Hsane.
  destruct (PathStore_add_over_blob store k b' b w' Hsane Hget) as [w'' Hadd'].
  exists w''. split; [done|]. by apply (PathStore_get_after_add _ _ _ _ _ Hadd').
Qed.

(** ** Relations that every step of a computation respects *)

Section Respects.
Context (R : world → world → Prop) `{!Reflexive R, !Transitive R}.

Lemma respects_ret {A} (a : A) : respects R (ret a).
Proof. intros w. simpl. reflexivity. Qed.

Lemma respects_raise {A} e : respects R (@raise A e).
Proof. intros w. simpl. reflexivity. Qed.

Lemma respects_get_world : respects R get_world.
Proof. intros w. simpl. reflexivity. Qed.

Lemma respects_namei p : respects R (namei p).
Proof. intros w. simpl. reflexivity. Qed.

Lemma respects_local {A} var (v : option A) : respects R (local var v).
Proof. intros w. destruct v; simpl; reflexivity. Qed.

Lemma respects_bind {A B} (m : M A) (f : A → M B) :
  respects R m → (∀ a, respects R (f a)) → respects R (bind m f).
Proof.
  intros Hm Hf w. unfold bind. specialize (Hm w).
  destruct (m w) as [[a|e] w1]; simpl in *; [|done].
  etrans; [exact Hm|apply Hf].
Qed.

Lemma respects_bind_raise {A B} e (f : A → M B) : respects R (bind (raise e) f).
Proof. intros w. simpl. reflexivity. Qed.

Lemma respects_try {A} (m : M A) h :
  respects R m → (∀ e, respects R (h e)) → respects R (try_except m h).
Proof.
  intros Hm Hh w. unfold try_except. specialize (Hm w).
  destruct (m w) as [[a|e] w1]; simpl in *; [done|].
  etrans; [exact Hm|apply Hh].
Qed.

Lemma respects_finally {A} (m : M A) c :
  respects R m → respects R c → respects R (finally m c).
Proof.
  intros Hm Hc w. unfold finally. specialize (Hm w).
  destruct (m w) as [r w1]. specialize (Hc w1).
  destruct (c w1) as [[[]|e] w2]; simpl in *; by etrans.
Qed.

Lemma respects_foldM {A B} (f : B → A → M B) b l :
  (∀ b a, respects R (f b a)) → respects R (foldM f b l).
Proof.
  intros Hf. revert b. induction l as [|a l IH]; intros b; simpl.
  - apply respects_ret.
  - apply respects_bind; [apply Hf|]. intros b'. apply IH.
Qed.

Lemma respects_modify f : (∀ w, R w (f w)) → respects R (modify f).
Proof. intros H w. apply H. Qed.

(** A continuation may rely on what the first computation returns. *)
Lemma respects_bind_post {A B} (Q : A → Prop) (m : M A) (f : A → M B) :
  respects R m →
  (∀ w a w', m w = (Ok a, w') → Q a) →
  (∀ a, Q a → respects R (f a)) →
  respects R (bind m f).
Proof.
  intros Hm HQ Hf w. unfold bind. specialize (Hm w). specialize (HQ w).
  destruct (m w) as [[a|e] w1]; simpl in *; [|done].
  etrans; [exact Hm|]. apply Hf. by eapply HQ.
Qed.

Lemma respects_foldM_Forall {A B} (Q : A → Prop) (f : B → A → M B) b l :
  Forall Q l → (∀ b a, Q a → respects R (f b a)) → respects R (foldM f b l).
Proof.
  intros Hl Hf. revert b. induction Hl as [|a l Ha _ IH]; intros b; simpl.
  - apply respects_ret.
  - apply respects_bind; [by apply Hf|]. intros b'. apply IH.
Qed.

(** Computations that only read leave the world as it is. *)
Lemma respects_os_stat p : respects R (os_stat p).
Proof. intros w. rewrite os_stat_eq. simpl. reflexivity. Qed.

Lemma respects_path_exists p : respects R (path_exists p).
Proof. intros w. rewrite path_exists_eq. simpl. reflexivity. Qed.

Lemma respects_path_isdir p : respects R (path_isdir p).
Proof. intros w. rewrite path_isdir_eq. simpl. reflexivity. Qed.

Lemma respects_Path_exists p : respects R (Path_exists p).
Proof. intros w. rewrite Path_exists_eq. simpl. reflexivity. Qed.

Lemma respects_Path_is_dir p : respects R (Path_is_dir p).
Proof. intros w. rewrite Path_is_dir_eq. simpl. reflexivity. Qed.

Lemma respects_read_file p : respects R (read_file p).
Proof. intros w. unfold read_file, bind, namei, get_world.
  destruct (resolve w p); [|simpl; reflexivity].
  destruct (fs w !! _) as [[]|]; simpl; reflexivity. Qed.

Lemma respects_os_scandir p : respects R (os_scandir p).
Proof. intros w. unfold os_scandir, bind, namei, get_world.
  destruct (resolve w p); [|simpl; reflexivity].
  destruct (fs w !! _) as [[]|]; simpl; reflexivity. Qed.

Lemma respects_tolerate_existing is_dir self ok e :
  (∀ p, respects R (is_dir p)) →
  respects R (tolerate_existing is_dir self ok e).
Proof.
  intros His. unfold tolerate_existing. destruct (is_OSError e), ok;
    try apply respects_raise.
  apply respects_bind; [apply His|].
  intros []; [apply respects_ret|apply respects_raise].
Qed.

Lemma respects_samefile a b : respects R (samefile a b).
Proof.
  unfold samefile. apply respects_try.
  - repeat (apply respects_bind; [first [apply respects_namei|apply respects_os_stat]|intros ?]).
    apply respects_ret.
  - intros e. destruct (is_OSError e); [apply respects_ret|apply respects_raise].
Qed.

End Respects.

(** One step of a proof that a computation respects a relation. *)
Ltac respects_step :=
  lazymatch goal with
  | |- respects _ (bind (raise _) _) => apply respects_bind_raise; apply _
  | |- respects _ (bind _ _) =>
      apply respects_bind; try (solve [apply _]); [|intros ?]
  | |- respects _ (ret _) => apply respects_ret; apply _
  | |- respects _ (raise _) => apply respects_raise; apply _
  | |- respects _ get_world => apply respects_get_world; apply _
  | |- respects _ (namei _) => apply respects_namei; apply _
  | |- respects _ (local _ _) => apply respects_local; apply _
  | |- respects _ (os_stat _) => apply respects_os_stat; apply _
  | |- respects _ (path_exists _) => apply respects_path_exists; apply _
  | |- respects _ (path_isdir _) => apply respects_path_isdir; apply _
  | |- respects _ (Path_exists _) => apply respects_Path_exists; apply _
  | |- respects _ (Path_is_dir _) => apply respects_Path_is_dir; apply _
  | |- respects _ (read_file _) => apply respects_read_file; apply _
  | |- respects _ (os_scandir _) => apply respects_os_scandir; apply _
  | |- respects _ (tolerate_existing Path_is_dir _ _ _) =>
      apply respects_tolerate_existing;
      [apply _..|intros ?; apply respects_Path_is_dir; apply _]
  | |- respects _ (tolerate_existing path_isdir _ _ _) =>
      apply respects_tolerate_existing;
      [apply _..|intros ?; apply respects_path_isdir; apply _]
  | |- respects _ (samefile _ _) => apply respects_samefile; apply _
  | |- respects _ (try_except _ _) =>
      apply respects_try; try (solve [apply _]); [|intros ?]
  | |- respects _ (finally _ _) =>
      apply respects_finally; try (solve [apply _])
  | |- respects _ (foldM _ _ _) =>
      apply respects_foldM; try (solve [apply _]); intros ? ?
  | |- respects _ (match ?x with _ => _ end) => destruct x
  | |- respects _ (let _ := _ in _) => cbv zeta
  end.

Ltac respects_auto db := repeat (first [respects_step | solve [eauto with db]]).

(** *** Nothing in the file system layer talks to the provider *)

#[local] Instance same_log_refl : Reflexive same_log.
Proof. by intros w. Qed.
#[local] Instance same_log_trans : Transitive same_log.
Proof. intros w1 w2 w3. unfold same_log. congruence. Qed.

Create HintDb quiet discriminated.

Lemma quiet_set_fs f : respects same_log (modify (λ w, set_fs (f w) w)).
Proof. by apply respects_modify. Qed.

Lemma quiet_set_rng r : respects same_log (modify (set_rng r)).
Proof. by apply respects_modify. Qed.

#[local] Hint Resolve quiet_set_rng : quiet.

Lemma quiet_os_mkdir p : respects same_log (os_mkdir p).
Proof. unfold os_mkdir. respects_auto quiet. apply (quiet_set_fs (λ w, <[_ := _]> (fs w))). Qed.

Lemma quiet_rmtree p : respects same_log (rmtree p).
Proof.
  unfold rmtree. respects_auto quiet.
  apply (quiet_set_fs (λ w, filter _ (fs w))).
Qed.

Lemma quiet_cleanup d : respects same_log (cleanup d).
Proof. unfold cleanup. respects_auto quiet. apply quiet_rmtree. Qed.

#[local] Hint Resolve quiet_os_mkdir quiet_rmtree quiet_cleanup : quiet.

Lemma quiet_mkdtemp_from dir prefix names :
  respects same_log (mkdtemp_from dir prefix names).
Proof.
  induction names as [|n names IH]; simpl; respects_auto quiet.
Qed.

Lemma quiet_mkdtemp prefix : respects same_log (mkdtemp prefix).
Proof. intros w. apply quiet_mkdtemp_from. Qed.

Lemma quiet_PathStore_get s k : respects same_log (PathStore.get s k).
Proof. unfold PathStore.get, Path_read_bytes. respects_auto quiet. Qed.

Lemma quiet_PathStore_get_directory s k :
  respects same_log (PathStore.get_directory s k).
Proof. unfold PathStore.get_directory. respects_auto quiet. Qed.

#[local] Hint Resolve quiet_mkdtemp quiet_PathStore_get
  quiet_PathStore_get_directory : quiet.

Lemma quiet_SymbolStore_get s v : respects same_log (SymbolStore.get s v).
Proof. unfold SymbolStore.get. respects_auto quiet. Qed.

Lemma quiet_ArtifactStore_get s p j : respects same_log (ArtifactStore.get s p j).
Proof. unfold ArtifactStore.get. respects_auto quiet. Qed.

Lemma quiet_get_text_property h a :
  respects same_log (Artifacts._get_text_property h a).
Proof. unfold Artifacts._get_text_property. respects_auto quiet. Qed.

#[local] Hint Resolve quiet_SymbolStore_get quiet_ArtifactStore_get
  quiet_get_text_property : quiet.

(** ** Artifact handles: the cache of a text property *)

Lemma get_text_property_cached h a v :
  Artifacts.getattr h a = Some v →
  Artifacts._get_text_property h a = ret (Some v, h).
Proof. intros H. unfold Artifacts._get_text_property. by rewrite H. Qed.

Lemma getattr_setattr h a v :
  Artifacts.getattr (Artifacts.setattr h a v) a = Some v.
Proof. by destruct a. Qed.

Lemma get_text_property_caches h a w v h' w' :
  Artifacts._get_text_property h a w = (Ok (Some v, h'), w') →
  Artifacts.getattr h' a = Some v.
Proof.
  unfold Artifacts._get_text_property.
  destruct (Artifacts.getattr h a) as [v0|] eqn:Hg.
  - by intros [= <- <- <-].
  - unfold bind. destruct (PathStore.get _ _ w) as [[[[|b bs]|]|e] w1]; try done.
    destruct (utf8_decode _); [|done]. intros [= <- <- <-].
    apply getattr_setattr.
Qed.

(** ** Symbol resolution: the fast path *)

Lemma bind_ok {A B} (m : M A) (f : A → M B) w a w1 :
  m w = (Ok a, w1) → bind m f w = f a w1.
Proof. intros H. unfold bind. by rewrite H. Qed.

Lemma bind_raise {A B} (m : M A) (f : A → M B) w e w1 :
  m w = (Raise e, w1) → bind m f w = (Raise e, w1).
Proof. intros H. unfold bind. by rewrite H. Qed.

(** What is left of [get_symbols_for_job_id] once the fast path has
    produced the version: the look-up in the Symbol Store and, on a
    miss, the extraction of an archive that no statement of the fast
    path has named. *)
Lemma fast_path_tail read_zip project cli job_id w a v a' w1 w2 :
  ArtifactStore.get (artifact_store cli) (py "datadog-agent") job_id w
    = (Ok (Some a), w1) →
  Artifacts._get_text_property a Artifacts.version w1 = (Ok (Some v, a'), w2) →
  v ≠ [] →
  get_symbols_for_job_id read_zip project cli job_id w =
  (let* syms := SymbolStore.get (symbol_store cli) v in
   match syms with
   | Some syms => ret syms
   | None =>
       with_TemporaryDirectory (λ tmp_dir,
         raise (UnboundLocalError "debug_zip"))
   end) w2.
Proof.
  intros Hget Hver Hv. unfold get_symbols_for_job_id.
  rewrite (bind_ok _ _ _ _ _ Hget).
  rewrite (bind_ok _ _ w1 (Some a', true) w2).
  2:{ rewrite (bind_ok _ _ _ _ _ Hver). simpl. by destruct v. }
  rewrite (get_text_property_cached a' _ v) by (by eapply get_text_property_caches).
  reflexivity.
Qed.

(** C5. On the fast path, when the job's handle exists and its version
    is set, symbol resolution sends no request to the CI provider,
    whatever its outcome. *)
Theorem fast_path_no_ci_calls read_zip project cli job_id w a v a' w1 w2 :
  ArtifactStore.get (artifact_store cli) (py "datadog-agent") job_id w
    = (Ok (Some a), w1) →
  Artifacts._get_text_property a Artifacts.version w1 = (Ok (Some v, a'), w2) →
  v ≠ [] →
  ci_log (get_symbols_for_job_id read_zip project cli job_id w).2 = ci_log w.
Proof.
  intros Hget Hver Hv.
  rewrite (fast_path_tail _ _ _ _ _ _ _ _ _ _ Hget Hver Hv).
  assert (ci_log w1 = ci_log w) as <-.
  { pose proof (quiet_ArtifactStore_get (artifact_store cli) (py "datadog-agent") job_id w) as H.
    by rewrite Hget in H. }
  assert (ci_log w2 = ci_log w1) as <-.
  { pose proof (quiet_get_text_property a Artifacts.version w1) as H.
    by rewrite Hver in H. }
  match goal with |- ci_log (?m w2).2 = _ => cut (respects same_log m) end.
  { intros H. apply H. }
  unfold with_TemporaryDirectory. respects_auto quiet.
Qed.

(** On the fast path a version that the Symbol Store does not hold can
    never be resolved: the archive to extract was only named on the slow
    path. *)
Lemma fast_path_missing_symbols_raises read_zip project cli job_id w a v a' w1 w2 :
  ArtifactStore.get (artifact_store cli) (py "datadog-agent") job_id w
    = (Ok (Some a), w1) →
  Artifacts._get_text_property a Artifacts.version w1 = (Ok (Some v, a'), w2) →
  v ≠ [] →
  SymbolStore.get (symbol_store cli) v w2 = (Ok None, w2) →
  ∃ e w', get_symbols_for_job_id read_zip project cli job_id w = (Raise e, w').
Proof.
  intros Hget Hver Hv Hsym.
  rewrite (fast_path_tail _ _ _ _ _ _ _ _ _ _ Hget Hver Hv).
  rewrite (bind_ok _ _ _ _ _ Hsym). unfold with_TemporaryDirectory, bind.
  destruct (mkdtemp _ w2) as [[d|e] w3]; [|eauto].
  unfold finally, raise. destruct (cleanup d w3) as [[[]|e] w4]; eauto.
Qed.

(** C1. On the fast path [get_symbols_for_job_id] cannot extract
    anything: with the version of the job cached and no symbols stored
    for it, the call raises [UnboundLocalError] for [debug_zip], leaves
    the Symbol Store as it was and returns no path. *)
Theorem fast_path_unbound_debug_zip :
  let r := get_symbols_for_job_id demo_unzip demo_project demo_cli (py "J1")
             version_only_cache in
  r.1 = Raise (UnboundLocalError "debug_zip")
  ∧ fs r.2 = fs version_only_cache
  ∧ ci_log r.2 = [].
Proof.
  split_and!.
  - vm_compute. reflexivity.
  - apply (bool_decide_unpack _). vm_compute. exact I.
  - vm_compute. reflexivity.
Qed.

(** The cache of C1 arises from the code itself: when the first
    resolution fails while extracting, the version is already recorded,
    and every later call takes the fast path and fails. *)
Example failed_extraction_then_fast_path :
  let first := get_symbols_for_job_id corrupt_unzip demo_project demo_cli
                 (py "J1") empty_cache in
  first.1 = Raise BadZipFile
  ∧ (get_symbols_for_job_id corrupt_unzip demo_project demo_cli (py "J1") first.2).1
    = Raise (UnboundLocalError "debug_zip")
  ∧ (get_symbols_for_job_id demo_unzip demo_project demo_cli (py "J1") first.2).1
    = Raise (UnboundLocalError "debug_zip").
Proof. vm_compute. done. Qed.

(** The end-to-end scenario of the specification. *)
Example end_to_end :
  let first := get_symbols_for_job_id demo_unzip demo_project demo_cli
                 (py "J1") empty_cache in
  let second := get_symbols_for_job_id demo_unzip demo_project demo_cli
                  (py "J1") first.2 in
  first.1 = Ok (Path (py "/home/.agent-crash-analyzer/symbols/agent-7.50.0/symbols"))
  ∧ second.1 = first.1
  ∧ ci_log second.2 = ci_log first.2
  ∧ fs second.2 = fs first.2.
Proof.
  split_and!; [vm_compute; reflexivity..|].
  apply (bool_decide_unpack _). vm_compute. exact I.
Qed.

(** C4. With a relative root the Symbol Store files the symbols in one
    place and answers with another: [add] copies to
    [store/store/1.0/symbols] and returns [store/1.0/symbols], where
    nothing exists, and [get] afterwards returns a different path. *)
Theorem SymbolStore_relative_root_mismatch :
  let r := SymbolStore.add relative_store (py "1.0") (ArgStr (py "/tmp/src"))
             symbols_to_add in
  r.1 = Ok (Path (py "store/1.0/symbols"))
  ∧ stat_of r.2 (Path (py "store/1.0/symbols")) = None
  ∧ stat_of r.2 (Path (py "store/store/1.0/symbols/agent.exe.debug"))
    = Some (KFile [8])
  ∧ (SymbolStore.get relative_store (py "1.0") r.2).1
    = Ok (Some (Path (py "store/store/1.0/symbols"))).
Proof. vm_compute. done. Qed.

(** ** The package job *)

Lemma first_named_spec wanted jobs :
  match first_named wanted jobs with
  | Some id =>
      ∃ before j after,
        jobs = before ++ j :: after ∧ j_name j = wanted ∧ id = j_id j
        ∧ Forall (λ j', j_name j' ≠ wanted) before
  | None => Forall (λ j, j_name j ≠ wanted) jobs
  end.
Proof.
  induction jobs as [|j jobs IH]; simpl; [done|].
  case_decide as Hj.
  - exists [], j, jobs. done.
  - destruct (first_named wanted jobs) as [id|].
    + destruct IH as (before & j' & after & -> & ? & ? & ?).
      exists (j :: before), j', after. split_and!; try done. by constructor.
    + by constructor.
Qed.

(** For a given listing of the pipeline's completed jobs,
    [get_package_job_id] answers with the identifier of the first job
    bearing the package-job name (by default
    [windows_msi_and_bosh_zip_x64-a7]); when no listed job bears it, the
    answer is [None], and nothing is raised. *)
Lemma get_package_job_id_first_match project job_id name w job pipeline jobs :
  jobs_get project (Some job_id) = Ok job →
  pipelines_get project (j_pipeline_id job) = Ok pipeline →
  pipeline_jobs_list project pipeline = Ok jobs →
  let wanted := default (py "windows_msi_and_bosh_zip_x64-a7") name in
  ∃ r w',
    get_package_job_id project job_id name w = (Ok r, w')
    ∧ fs w' = fs w
    ∧ match r with
      | Some id =>
          ∃ before j after,
            jobs = before ++ j :: after ∧ j_name j = wanted ∧ id = j_id j
            ∧ Forall (λ j', j_name j' ≠ wanted) before
      | None => Forall (λ j, j_name j ≠ wanted) jobs
      end.
Proof.
  intros Hjob Hpl Hjobs wanted.
  exists (first_named wanted jobs). eexists. split; [|split].
  - unfold get_package_job_id, request, bind, modify. simpl.
    rewrite Hjob. simpl. rewrite Hpl. simpl. rewrite Hjobs. reflexivity.
  - done.
  - apply first_named_spec.
Qed.

(** C3. A pipeline without the package job is not reported: no listed
    job bears the package-job name, [get_package_job_id] returns [None]
    without raising, and [get_symbols_for_job_id] goes on with it as the
    job to fetch, asking the provider for the job [None]; the call ends
    with the provider's answer to that request. *)
Theorem missing_package_job_asks_for_job_None :
  let r := get_symbols_for_job_id demo_unzip lonely_project demo_cli (py "J1")
             empty_cache in
  pipeline_jobs_list lonely_project (py "PL") = Ok [job_J1]
  ∧ Forall (λ j, j_name j ≠ py "windows_msi_and_bosh_zip_x64-a7") [job_J1]
  ∧ (get_package_job_id lonely_project (py "J1") None empty_cache).1 = Ok None
  ∧ r.1 = Raise (GitlabError 404)
  ∧ ci_log r.2 = [CallJobsGet (Some (py "J1")); CallPipelinesGet (py "PL");
                  CallPipelineJobsList (py "PL"); CallJobsGet None]
  ∧ fs r.2 = fs empty_cache.
Proof.
  split; [done|]. split; [repeat constructor; vm_compute; done|].
  split_and!; [vm_compute; reflexivity..|].
  apply (bool_decide_unpack _). vm_compute. exact I.
Qed.

(** ** Text properties of a handle *)

Lemma key_setattr h a v :
  a ≠ Artifacts.project →
  Artifacts.text_key (Artifacts.setattr h a v) a = Artifacts.text_key h a
  ∧ Artifacts.path_store (Artifacts.setattr h a v) = Artifacts.path_store h.
Proof. by destruct a. Qed.

Lemma get_text_property_from_storage h a v bs w :
  Artifacts.getattr h a = None →
  utf8_encode v = Some bs →
  v ≠ [] →
  (∀ c, head v = Some c → isspace c = false) →
  (∀ c, last v = Some c → isspace c = false) →
  PathStore.get (Artifacts.path_store h) (Artifacts.text_key h a) w
    = (Ok (Some bs), w) →
  Artifacts._get_text_property h a w = (Ok (Some v, Artifacts.setattr h a v), w).
Proof.
  intros Hnone Henc Hv Hh Hl Hget. unfold Artifacts._get_text_property.
  rewrite Hnone, (bind_ok _ _ _ _ _ Hget).
  pose proof (utf8_encode_nonempty _ _ Henc Hv) as Hbs.
  destruct bs as [|b bs]; [done|].
  rewrite (utf8_roundtrip _ _ Henc), strip_id by done. done.
Qed.

(** C8 (as amended). For the [version] and [pipeline] properties and a
    non-empty value without surrounding whitespace: when the setter
    returns, the value cached in the handle is the value written, the
    handle keeps answering with it without reading storage, and a handle
    that has to read storage (a fresh one for the same project and job)
    obtains the same value.  The cache is assigned after the write: when
    the setter raises, the handle is left as it was. *)
Theorem setter_cache_agrees_with_storage (h : Artifacts.t) (a : Artifacts.attr)
    (v : pystr) (w : world) (r : result unit) (h' : Artifacts.t) (w' : world) :
  a ≠ Artifacts.project →
  v ≠ [] →
  (∀ c, head v = Some c → isspace c = false) →
  (∀ c, last v = Some c → isspace c = false) →
  Artifacts._set_text_property h a v w = (r, (h', w')) →
  match r with
  | Ok _ =>
      Artifacts.getattr h' a = Some v
      ∧ Artifacts._get_text_property h' a w' = (Ok (Some v, h'), w')
      ∧ (let fresh := Artifacts.init (Artifacts._project h) (Artifacts._job h)
                        (Artifacts.path_store h) in
         Artifacts._get_text_property fresh a w'
         = (Ok (Some v, Artifacts.setattr fresh a v), w'))
  | Raise _ => h' = h ∧ Artifacts.getattr h' a = Artifacts.getattr h a
  end.
Proof.
  intros Ha Hv Hh Hl. unfold Artifacts._set_text_property.
  destruct (utf8_encode v) as [bs|] eqn:Henc; [|by intros [= <- <- <-]].
  destruct (PathStore.add _ _ bs w) as [[[]|e] w1] eqn:Hadd;
    [|by intros [= <- <- <-]].
  intros [= <- <- <-].
  apply PathStore_get_after_add in Hadd as [Hget _].
  split; [apply getattr_setattr|]. split.
  - by rewrite (get_text_property_cached _ _ v) by apply getattr_setattr.
  - simpl. apply (get_text_property_from_storage _ _ _ bs); try done.
    by destruct a.
Qed.

(** C8, as stated, fails for a value with surrounding whitespace: the
    handle caches the value as given, while storage read back yields the
    trimmed text. *)
Lemma setter_cache_keeps_whitespace :
  let store := PathStore.init (ArgStr (py "/home/cache")) in
  let h := Artifacts.init (py "datadog-agent") (py "J1") store in
  let set := Artifacts._set_text_property h Artifacts.version (py " 7.50.0")
               empty_cache in
  let cached := Artifacts.getattr set.2.1 Artifacts.version in
  let stored :=
    match (Artifacts._get_text_property h Artifacts.version set.2.2).1 with
    | Ok (value, _) => value
    | Raise _ => None
    end in
  set.1 = Ok tt
  ∧ cached = Some (py " 7.50.0") ∧ stored = Some (py "7.50.0") ∧ cached ≠ stored.
Proof. vm_compute. split_and!; done. Qed.

(** The [project] property shares its cache field with the identity of
    the handle: setting it writes [project.txt] under the old key and
    then moves the handle to another key, so the handle no longer finds
    the version recorded for its job. *)
Example project_setter_moves_the_handle :
  let h := Artifacts.init (py "datadog-agent") (py "J1")
             (ArtifactStore.path_store (artifact_store demo_cli)) in
  let set := Artifacts._set_text_property h Artifacts.project (py "other")
               version_only_cache in
  (Artifacts._get_text_property h Artifacts.version version_only_cache).1
    = Ok (Some (py "agent-7.50.0"),
          Artifacts.setattr h Artifacts.version (py "agent-7.50.0"))
  ∧ set.1 = Ok tt
  ∧ Artifacts.key set.2.1 = py "other/J1"
  ∧ (Artifacts._get_text_property set.2.1 Artifacts.version set.2.2).1
    = Ok (None, set.2.1)
  ∧ stat_of set.2.2 (Path (py "/home/.agent-crash-analyzer/artifacts/datadog-agent/J1/project.txt"))
    = Some (KFile (py "other")).
Proof. vm_compute. done. Qed.

(** ** Strings: suffixes and path components *)









Lemma split_on_segments sep s : Forall (λ seg, sep ∉ seg) (split_on sep s).
Proof.
  induction s as [|c s IH]; simpl.
  - apply Forall_cons. split; [apply not_elem_of_nil|constructor].
  - case_decide as Hc.
    + apply Forall_cons. split; [apply not_elem_of_nil|done].
    + destruct (split_on sep s) as [|h t].
      * apply Forall_cons. split; [|constructor].
        apply not_elem_of_cons. split; [congruence|apply not_elem_of_nil].
      * apply Forall_cons in IH as [Hh Ht]. apply Forall_cons. split; [|done].
        apply not_elem_of_cons. split; [congruence|done].
Qed.


(** What [after_last] gives: a text without the separator that the
    whole text ends with, right after a separator when there is one. *)
Lemma after_last_spec sep s :
  (sep ∉ after_last sep s)
  ∧ (s = after_last sep s ∨ ∃ dir, s = dir ++ sep :: after_last sep s).
Proof.
  induction s as [|c s [IH1 IH2]]; simpl.
  - split; [apply not_elem_of_nil|by left].
  - case_decide as H.
    + split; [done|]. right. destruct IH2 as [IH2|[dir IH2]].
      * destruct H as [->|H]; [exists []; by rewrite <-IH2|].
        rewrite <-IH2 in IH1. done.
      * exists (c :: dir). by rewrite IH2 at 1.
    + split; [|by left]. apply not_elem_of_cons. split; [|tauto].
      intros ->. tauto.
Qed.



Lemma split_on_no_sep sep s : sep ∉ s → split_on sep s = [s].
Proof.
  induction s as [|c s IH]; simpl; [done|]. intros H.
  apply not_elem_of_cons in H as [Hc Hs].
  rewrite decide_False by done. by rewrite IH.
Qed.

Lemma normparts_cons_plain anch acc c r :
  c ≠ [] → c ≠ dot → c ≠ dotdot →
  normparts anch acc (c :: r) = normparts anch (c :: acc) r.
Proof.
  intros H1 H2 H3. cbn [normparts].
  case_decide as H; [by destruct H|]. by case_decide.
Qed.

Lemma normparts_plain anch acc ps :
  Forall (λ c, c ≠ [] ∧ c ≠ dot ∧ c ≠ dotdot) ps →
  normparts anch acc ps = reverse acc ++ ps.
Proof.
  intros H. revert acc. induction H as [|c ps Hc _ IH]; intros acc.
  - simpl. by rewrite app_nil_r.
  - destruct Hc as (H1 & H2 & H3). rewrite normparts_cons_plain by done.
    rewrite IH, reverse_cons, <- app_assoc. done.
Qed.


(** ** Extraction *)

Lemma step_plain d n : n ≠ dot → n ≠ dotdot → step d n = d ++ [n].
Proof. intros. unfold step. by rewrite !decide_False. Qed.

Lemma set_fs_set_fs f g w : set_fs f (set_fs g w) = set_fs f w.
Proof. done. Qed.


(** Writing to a file: it needs the path to lead somewhere, and no
    directory there. *)
Lemma write_file_eq p d w :
  write_file p d w
  = match resolve w p with
    | Ok l =>
        if decide (fs w !! l = Some KDir) then (Raise IsADirectoryError, w)
        else (Ok tt, set_fs (<[l := KFile d]> (fs w)) w)
    | Raise e => (Raise e, w)
    end.
Proof.
  unfold write_file, bind, namei, get_world, modify, raise.
  destruct (resolve w p) as [l|e]; [|done].
  case_decide as H; [by rewrite H|]. by destruct (fs w !! l) as [[]|].
Qed.













Section Extraction.
Variable read_zip : bytes → option (list ZipInfo).



End Extraction.


Section ExtractionClaims.
Variable read_zip : bytes → option (list ZipInfo).



End ExtractionClaims.

(** ** Where the store operations write *)

#[local] Instance within_refl P : Reflexive (within P).
Proof. intros w. split; [done|]. by intros q []. Qed.

#[local] Instance within_trans P : Transitive (within P).
Proof.
  intros w1 w2 w3 [Hc1 H1] [Hc2 H2]. split; [congruence|].
  intros q Hq. destruct (decide (fs w2 !! q = fs w1 !! q)) as [Heq|Hne].
  - rewrite <- Hc1. apply H2. congruence.
  - by apply H1.
Qed.

Lemma foldl_step_plain cur names :
  Forall (λ x, x ≠ dot ∧ x ≠ dotdot) names → foldl step cur names = cur ++ names.
Proof.
  intros H. revert cur. induction H as [|c cs [Hd Hdd] _ IH]; intros cur; simpl.
  - by rewrite app_nil_r.
  - rewrite IH, step_plain by done. by rewrite <- app_assoc.
Qed.

Lemma lit_nodots c p :
  nodots p → lit c p = (if anchored p then [] else c) ++ parts p.
Proof. intros H. by apply foldl_step_plain. Qed.

Lemma resolve_lit w p l : resolve w p = Ok l → l = lit (cwd w) p.
Proof. apply resolve_place. Qed.

Lemma elem_of_trail c p q :
  q ∈ trail c p ↔
  ∃ ps, ps `prefix_of` parts p ∧ q = foldl step (if anchored p then [] else c) ps.
Proof.
  unfold trail. rewrite list_elem_of_fmap. split.
  - intros (n & -> & _). exists (take n (parts p)). split; [|done].
    apply prefix_take.
  - intros (ps & [k Hps] & ->). exists (length ps). split.
    + by rewrite Hps, take_app_length.
    + apply elem_of_seq. rewrite Hps, length_app. lia.
Qed.

Lemma lit_on_way c t : on_way t c (lit c t).
Proof. apply elem_of_trail. by exists (parts t). Qed.

(** With plain names only, a place on the way to another lies above it. *)
Lemma on_way_prefix t c q : nodots t → on_way t c q → q `prefix_of` lit c t.
Proof.
  intros Hn (ps & [k Hps] & ->)%elem_of_trail. rewrite lit_nodots by done.
  unfold nodots in Hn. rewrite Hps in Hn. apply Forall_app in Hn as [Hn _].
  rewrite foldl_step_plain, Hps, (assoc_L (++)) by done. by apply prefix_app_r.
Qed.

Lemma around_comparable t c q : nodots t → around t c q → comparable (lit c t) q.
Proof. intros Hn [H|H]; [right; by apply on_way_prefix|by left]. Qed.

Lemma upto_near t p : upto t p → near t p.
Proof. by left. Qed.

Lemma below_near t p : below t p → near t p.
Proof. by right. Qed.

Lemma upto_self t : upto t t.
Proof. done. Qed.

Lemma below_self t : below t t.
Proof. split; [done|]. exists []. by rewrite app_nil_r. Qed.

Lemma below_child t p n :
  below t p → n ≠ dot → n ≠ dotdot → below t (path_child p n).
Proof.
  intros (Ha & names & Hp & Hn) ? ?. split; [done|]. simpl.
  exists (names ++ [n]). rewrite Hp, (assoc_L (++)). split; [done|].
  apply Forall_app. split; [done|]. by constructor.
Qed.

Lemma upto_place t p c : upto t p → on_way t c (lit c p).
Proof.
  intros [Ha Hp]. apply elem_of_trail. exists (parts p). split; [done|].
  unfold lit. by rewrite Ha.
Qed.

Lemma near_place t p c : near t p → around t c (lit c p).
Proof.
  intros [H|(Ha & names & Hp & Hn)]; [left; by apply upto_place|right].
  unfold lit. rewrite Ha, Hp, foldl_app, (foldl_step_plain _ names) by done.
  by apply prefix_app_r.
Qed.

Lemma prefix_snoc_cases {A} (l ps : list A) x :
  l `prefix_of` ps ++ [x] → l = ps ++ [x] ∨ l `prefix_of` ps.
Proof.
  intros [k E]. destruct k as [|y k _] using rev_ind.
  - left. by rewrite app_nil_r in E.
  - right. exists k. rewrite app_assoc in E. by apply app_inj_tail in E as [? _].
Qed.

Lemma upto_parent t a rp x :
  upto t (mkPath a (reverse (x :: rp))) → upto t (mkPath a (reverse rp)).
Proof.
  rewrite reverse_cons. intros [Ha Hp]. split; [done|]. simpl in *.
  etrans; [|exact Hp]. by apply prefix_app_r.
Qed.

Lemma near_parent t a rp x :
  near t (mkPath a (reverse (x :: rp))) → near t (mkPath a (reverse rp)).
Proof.
  intros [H|(Ha & names & Hp & Hn)]; [left; by eapply upto_parent|].
  rewrite reverse_cons in Hp. simpl in *.
  destruct names as [|y names _] using rev_ind.
  - left. split; [done|]. simpl. rewrite app_nil_r in Hp. rewrite <-Hp.
    by apply prefix_app_r.
  - right. split; [done|]. simpl. exists names.
    rewrite (assoc_L (++)) in Hp. apply app_inj_tail in Hp as [-> _].
    by apply Forall_app in Hn as [? _].
Qed.

Lemma upto_path_parent t : upto t (path_parent t).
Proof.
  destruct t as [a ps]. split; [done|]. simpl.
  destruct ps as [|x ps _] using rev_ind; [done|].
  rewrite removelast_last. by apply prefix_app_r.
Qed.

(** The writes of a computation whose paths all satisfy [Q] stay within
    the places [P], when [Q] paths name [P] places and the parent of a
    [Q] path is a [Q] path. *)
Section Frame.
Context (Q : PurePath → Prop) (P : loc → loc → Prop).
Hypothesis Q_place : ∀ p c, Q p → P c (lit c p).
Hypothesis Q_parent :
  ∀ a rp x, Q (mkPath a (reverse (x :: rp))) → Q (mkPath a (reverse rp)).

Lemma within_insert p w k l :
  Q p → resolve w p = Ok l →
  within P w (set_fs (<[l := k]> (fs w)) w).
Proof.
  intros Hn Hw. split; [done|]. intros q. simpl.
  rewrite lookup_insert. case_decide as Hq; [|done]. intros _. subst q.
  rewrite (resolve_lit w p l) by done. by apply Q_place.
Qed.

Lemma within_os_mkdir p : Q p → respects (within P) (os_mkdir p).
Proof.
  intros Hn w. destruct (os_mkdir p w) as [r w'] eqn:E.
  apply os_mkdir_inv in E. destruct r as [[]|e]; simpl.
  - destruct E as (l & Hw & _ & ->). by eapply within_insert.
  - rewrite E. reflexivity.
Qed.

Lemma within_write_file p d : Q p → respects (within P) (write_file p d).
Proof.
  intros Hn w. rewrite write_file_eq.
  destruct (resolve w p) as [l|e] eqn:Hw; simpl; [|reflexivity].
  case_decide; simpl; [reflexivity|]. by eapply within_insert.
Qed.

Lemma within_Path_mkdir_rev a rp parents exist_ok :
  Q (mkPath a (reverse rp)) →
  respects (within P) (Path_mkdir_rev a rp parents exist_ok).
Proof.
  revert parents exist_ok.
  induction rp as [|x rp IH]; intros parents exist_ok Hn; simpl.
  - apply respects_try; [apply _|by apply within_os_mkdir|].
    intros e. destruct e, parents; respects_auto core.
  - apply respects_try; [apply _|by apply within_os_mkdir|].
    intros e. destruct e, parents; respects_auto core;
      first [by apply within_os_mkdir | apply IH; by eapply Q_parent].
Qed.

Lemma within_Path_mkdir p parents exist_ok :
  Q p → respects (within P) (Path_mkdir p parents exist_ok).
Proof.
  intros Hn. apply within_Path_mkdir_rev. rewrite reverse_involutive. by destruct p.
Qed.

Lemma within_os_makedirs_rev a rp exist_ok :
  Q (mkPath a (reverse rp)) →
  respects (within P) (os_makedirs_rev a rp exist_ok).
Proof.
  induction rp as [|x rp IH]; intros Hn; simpl; respects_auto core;
    first [by apply within_os_mkdir | apply IH; by eapply Q_parent].
Qed.

Lemma within_os_makedirs p exist_ok :
  Q p → respects (within P) (os_makedirs p exist_ok).
Proof.
  intros Hn. apply within_os_makedirs_rev. rewrite reverse_involutive. by destruct p.
Qed.

Lemma within_copyfile src dst :
  Q dst → respects (within P) (copyfile src dst).
Proof. intros Hn. unfold copyfile. respects_auto core. by apply within_write_file. Qed.
End Frame.

Lemma within_copy2 t src dst :
  below t dst → path_name src ≠ dot → path_name src ≠ dotdot →
  respects (within (around t)) (copy2 src dst).
Proof.
  intros Hb ? ?. unfold copy2.
  apply respects_bind; [apply _|apply respects_path_isdir; apply _|].
  intros []; cbv zeta;
    apply (within_copyfile (near t)); try (intros ? ?; apply near_place);
    apply below_near; [by apply below_child|done].
Qed.

Lemma os_scandir_names p w entries w' :
  os_scandir p w = (Ok entries, w') →
  Forall (λ e : list Z * kind, e.1 ≠ dot ∧ e.1 ≠ dotdot) entries.
Proof.
  unfold os_scandir, bind, namei, get_world, ret, raise.
  destruct (resolve w p) as [l|]; [|done].
  destruct (fs w !! l) as [[]|]; try done. intros [= <- <-].
  apply Forall_forall. intros [n k] Hin. unfold children in Hin.
  apply list_elem_of_omap in Hin as ([key v] & _ & H).
  destruct (last key); [|done]. case_decide as Hd; [|done].
  simplify_eq. simpl. tauto.
Qed.

Lemma path_name_child p n : path_name (path_child p n) = n.
Proof. unfold path_name, path_child. simpl. by rewrite last_snoc. Qed.

(** [copytree] writes on the way down to its destination and below it. *)
Lemma within_copytree t depth src dst :
  below t dst → respects (within (around t)) (copytree depth src dst).
Proof.
  revert src dst. induction depth as [|depth IH]; intros src dst Hb; simpl.
  - apply respects_raise. apply _.
  - eapply respects_bind_post; [apply _|apply respects_os_scandir; apply _
                                |apply os_scandir_names|].
    intros entries Hnames.
    apply respects_bind;
      [apply _
      |apply (within_os_makedirs (near t));
       [intros ? ?; apply near_place|apply near_parent|by apply below_near]|].
    intros _. apply respects_bind; [apply _| |intros []; respects_auto core].
    apply (respects_foldM_Forall _
             (λ e : list Z * kind, e.1 ≠ dot ∧ e.1 ≠ dotdot)); [exact Hnames|].
    intros errors [n k] [Hd Hdd]. simpl in *.
    apply respects_try; [apply _| |intros e; respects_auto core].
    apply respects_bind; [apply _| |intros ?; respects_auto core].
    destruct k.
    + apply within_copy2; [by apply below_child|by rewrite path_name_child..].
    + apply IH. by apply below_child.
Qed.

(** [add] writes on the way to the path of its key; [add_directory]
    there and below. *)
Lemma within_PathStore_add store k b :
  respects (within (on_way (PathStore.path store </> k))) (PathStore.add store k b).
Proof.
  unfold PathStore.add, Path_write_bytes.
  apply respects_bind; [apply _| |intros _].
  - apply (within_Path_mkdir (upto (PathStore.path store </> k)));
      [intros ? ?; apply upto_place|apply upto_parent|apply upto_path_parent].
  - apply (within_write_file (upto (PathStore.path store </> k)));
      [intros ? ?; apply upto_place|apply upto_self].
Qed.

Lemma within_PathStore_add_directory store k src :
  respects (within (around (PathStore.path store </> k)))
    (PathStore.add_directory store k src).
Proof.
  unfold PathStore.add_directory.
  apply respects_bind; [apply _| |intros _; by apply within_copytree, below_self].
  apply (within_Path_mkdir (near (PathStore.path store </> k)));
    [intros ? ?; apply near_place|apply near_parent|apply upto_near, upto_self].
Qed.

Lemma within_weaken (P P' : loc → loc → Prop) w w' :
  (∀ c q, P c q → P' c q) → within P w w' → within P' w w'.
Proof. intros H [Hc Hq]. split; [done|]. intros q ?. by apply H, Hq. Qed.
(** ** Keys that were never written *)

Lemma within_run_op store op :
  respects (within (touches store op)) (run_op store op).
Proof.
  destruct op; simpl; [apply within_PathStore_add|apply within_PathStore_add_directory].
Qed.

(** A place that a computation may not write to keeps what it holds. *)
Lemma within_untouched P w w' q :
  within P w w' → ¬ P (cwd w) q → fs w' !! q = fs w !! q.
Proof.
  intros [_ H] Hq. destruct (decide (fs w' !! q = fs w !! q)) as [|Hne]; [done|].
  by apply H in Hne.
Qed.

Lemma run_ops_untouched store ops w q :
  Forall (λ op, ¬ touches store op (cwd w) q) ops →
  cwd (run_ops store ops w) = cwd w
  ∧ fs (run_ops store ops w) !! q = fs w !! q.
Proof.
  revert w. induction ops as [|op ops IH]; intros w Hops; simpl; [done|].
  apply Forall_cons in Hops as [Hq Hops].
  pose proof (within_run_op store op w) as Hstep.
  pose proof (within_untouched _ _ _ q Hstep Hq) as Hsame.
  destruct Hstep as [Hcwd _].
  destruct (IH (run_op store op w).2) as [-> ->]; [|by rewrite Hcwd].
  by rewrite Hcwd.
Qed.

(** Reading a key at whose place there is nothing: the answer is [None],
    unless a name or the path is too long for the system. *)
Lemma PathStore_get_absent store k w :
  fs w !! key_place store (cwd w) k = None →
  ∃ r, PathStore.get store k w = (r, w)
       ∧ (r = Ok None
          ∨ r = Raise (OSError ENAMETOOLONG) ∧ ¬ fits (PathStore.path store </> k)).
Proof.
  intros Hnone. unfold PathStore.get, bind. rewrite Path_exists_eq.
  assert (¬ is_Some (stat_of w (PathStore.path store </> k))) as Hno.
  { unfold stat_of.
    destruct (resolve _ _) as [l|e] eqn:Hw; [|by intros [? ?]].
    apply resolve_lit in Hw. subst l. unfold key_place in Hnone.
    rewrite Hnone. by intros [? ?]. }
  rewrite bool_decide_eq_false_2 by done.
  destruct (resolve _ _) as [l|e] eqn:Hw; [by eauto|].
  pose proof (resolve_raise_cases _ _ _ Hw) as He.
  destruct He as [->|[->|[->|[->| ->]]]]; eauto.
  eexists. split; [done|]. right. split; [done|]. intros Hf.
  by destruct (resolve_fits_raise _ _ _ Hf Hw).
Qed.

(** C7 (as amended). A key at whose path nothing existed before the
    writes, and whose place no write could reach -- it is not the path of
    a key written with [add] or [add_directory], not a directory on the
    way to one, and not a place below the directory of a key written with
    [add_directory] -- is absent: whatever the writes did to the other
    keys, and whether or not they succeeded, [get] returns [None] and
    leaves the disk alone.  The one exception is a key that the system
    refuses: when a name of its path is longer than 255 bytes, or the
    path 4096 bytes or more, [get] may raise [OSError]; it raises nothing
    else, and nothing for a path within the limits. *)
Theorem PathStore_get_unrelated_key_absent (store : PathStore.t)
    (ops : list store_op) (k : pystr) (w : world) :
  fs w !! key_place store (cwd w) k = None →
  Forall (λ op, ¬ touches store op (cwd w) (key_place store (cwd w) k)) ops →
  ∃ r, PathStore.get store k (run_ops store ops w) = (r, run_ops store ops w)
       ∧ (r = Ok None
          ∨ r = Raise (OSError ENAMETOOLONG) ∧ ¬ fits (PathStore.path store </> k)).
Proof.
  intros Hnone Hops.
  destruct (run_ops_untouched store ops w _ Hops) as [Hcwd Hfs].
  apply PathStore_get_absent. by rewrite Hcwd, Hfs.
Qed.

(** C7, as stated, fails: a key that was never written can name a
    directory that a write to another key created, on the way to a blob
    or inside a copied subtree, and reading it raises; so does reading a
    key with a name of 256 bytes; and a key that was never written can
    spell the path of one that was, and reading it yields that blob. *)
Lemma PathStore_get_raises_on_directory :
  let store := PathStore.init (ArgStr (py "/home/store")) in
  let ops := [OpAdd (py "a/b.txt") [1];
              OpAddDirectory (py "d") (Path (py "/tmp"))] in
  let w := run_ops store ops
             (machine [("/tmp/sub", KDir); ("/tmp/sub/f", KFile [2])]) in
  (py "a" ∉ (op_key <$> ops))
  ∧ (py "d/sub" ∉ (op_key <$> ops))
  ∧ (replicate 256 107 ∉ (op_key <$> ops))
  ∧ (py "a//b.txt" ∉ (op_key <$> ops))
  ∧ (PathStore.get store (py "a") w).1 = Raise IsADirectoryError
  ∧ (PathStore.get store (py "d/sub") w).1 = Raise IsADirectoryError
  ∧ (PathStore.get store (replicate 256 107) w).1 = Raise (OSError ENAMETOOLONG)
  ∧ (PathStore.get store (py "a//b.txt") w).1 = Ok (Some [1]).
Proof.
  split_and!; [| | | |vm_compute; reflexivity..];
    vm_compute; intros H;
    repeat (apply elem_of_cons in H as [H|H]; [done|]);
    by apply elem_of_nil in H.
Qed.

(** ** The artifact store *)

Lemma split_on_app_sep sep p rest :
  sep ∉ p → split_on sep (p ++ sep :: rest) = p :: split_on sep rest.
Proof.
  induction p as [|c p IH]; simpl; intros H.
  - by rewrite decide_True.
  - apply not_elem_of_cons in H as [Hc Hp].
    rewrite decide_False by done. by rewrite IH.
Qed.

Lemma keeps_valid_id s : valid_id s → keeps s = true.
Proof.
  intros (H1 & H2 & _). unfold keeps. by rewrite !bool_decide_eq_false_2.
Qed.

Lemma head_valid_id s rest : valid_id s → head (s ++ rest) ≠ Some slash.
Proof.
  intros (H1 & _ & _ & H4). destruct s as [|c s]; [done|]. simpl.
  intros [= ->]. apply H4. by left.
Qed.

(** The key of a pair, and the keys below it, as paths. *)
Lemma Path_makekey p j :
  valid_id p → valid_id j → Path (Artifacts.makekey p j) = mkPath false [p; j].
Proof.
  intros Hp Hj. unfold Path, Artifacts.makekey. f_equal.
  - apply bool_decide_eq_false_2. by apply head_valid_id.
  - rewrite split_on_app_sep by apply Hp.
    rewrite split_on_no_sep by apply Hj.
    rewrite !filter_cons_True by (by apply keeps_valid_id). done.
Qed.

Lemma Path_makekey_entry p j x :
  valid_id p → valid_id j → valid_id x →
  Path (Artifacts.makekey p j ++ slash :: x) = mkPath false [p; j; x].
Proof.
  intros Hp Hj Hx. unfold Path, Artifacts.makekey. f_equal.
  - apply bool_decide_eq_false_2. rewrite <- app_assoc. by apply head_valid_id.
  - rewrite <- app_assoc. simpl.
    rewrite split_on_app_sep by apply Hp.
    rewrite split_on_app_sep by apply Hj.
    rewrite split_on_no_sep by apply Hx.
    rewrite !filter_cons_True by (by apply keeps_valid_id). done.
Qed.

Lemma valid_id_artifacts : valid_id (py "artifacts").
Proof.
  split_and!; try done. vm_compute. intros H.
  repeat (apply elem_of_cons in H as [H|H]; [done|]). by apply elem_of_nil in H.
Qed.

Lemma valid_id_text_entry a : valid_id (Artifacts.attr_name a ++ py ".txt").
Proof.
  destruct a; (split_and!; try done); vm_compute; intros H;
    repeat (apply elem_of_cons in H as [H|H]; [done|]); by apply elem_of_nil in H.
Qed.

Lemma Forall_two {A} (P : A → Prop) a b : P a → P b → Forall P [a; b].
Proof. by repeat constructor. Qed.

Lemma Forall_three {A} (P : A → Prop) a b c : P a → P b → P c → Forall P [a; b; c].
Proof. by repeat constructor. Qed.

Lemma nodots_valid_ids ids : Forall valid_id ids → Forall (λ x, x ≠ dot ∧ x ≠ dotdot) ids.
Proof.
  intros H. eapply Forall_impl; [exact H|]. by intros x (_ & ? & ? & _).
Qed.

(** A path of the store made of the root and valid names. *)
Lemma store_path_nodots (root : PurePath) ids :
  nodots root → Forall valid_id ids →
  nodots (mkPath (anchored root) (parts root ++ ids)).
Proof.
  intros Hr Hids. unfold nodots. simpl. apply Forall_app. split; [done|].
  by apply nodots_valid_ids.
Qed.

Lemma joinpath_relative root s ps :
  Path s = mkPath false ps → root </> s = mkPath (anchored root) (parts root ++ ps).
Proof. intros H. unfold joinpath. by rewrite H. Qed.

(** What a write below the directory of one pair can change among the
    directories of pairs: only the directory of that pair. *)
Lemma pair_place_changed root c p0 j0 x p j w w' :
  nodots (mkPath (anchored root) (parts root ++ [p0; j0; x])) →
  nodots (mkPath (anchored root) (parts root ++ [p; j])) →
  within (around (mkPath (anchored root) (parts root ++ [p0; j0; x]))) w w' →
  cwd w = c →
  let place := lit c (mkPath (anchored root) (parts root ++ [p; j])) in
  fs w' !! place ≠ fs w !! place → p = p0 ∧ j = j0.
Proof.
  intros Hn0 Hn [_ H] <- place Hne. apply H in Hne.
  apply around_comparable in Hne; [|done].
  unfold comparable, place in Hne. rewrite !lit_nodots in Hne by done.
  simpl in Hne. rewrite !app_assoc in Hne.
  destruct Hne as [Hpre|Hpre].
  - rewrite <- !app_assoc in Hpre. do 2 apply prefix_app_inv in Hpre.
    apply prefix_length in Hpre. simpl in Hpre. lia.
  - rewrite <- !app_assoc in Hpre. do 2 apply prefix_app_inv in Hpre.
    destruct Hpre as [k Hk]. by simplify_list_eq.
Qed.

Section ArtifactStoreClient.
Variable store : ArtifactStore.t.
Local Abbreviation root := (PathStore.path (ArtifactStore.path_store store)).
Hypothesis root_nodots : nodots root.

Lemma pair_dir_eq p j :
  valid_id p → valid_id j →
  pair_dir store p j = mkPath (anchored root) (parts root ++ [p; j]).
Proof. intros. unfold pair_dir. apply joinpath_relative. by apply Path_makekey. Qed.

Lemma within_Artifacts_add p j h path :
  valid_id p → valid_id j → handle_of store p j h →
  respects
    (within (around (mkPath (anchored root) (parts root ++ [p; j; py "artifacts"]))))
    (Artifacts.add h path).
Proof.
  intros Hp Hj (<- & <- & Hs). unfold Artifacts.add, Artifacts.key. rewrite Hs.
  change (py "/artifacts") with (slash :: py "artifacts").
  pose proof (joinpath_relative root _ _
                (Path_makekey_entry _ _ _ Hp Hj valid_id_artifacts)) as Heq.
  rewrite <- Heq. apply within_PathStore_add_directory.
Qed.

Lemma within_set_text_property p j h a v w :
  valid_id p → valid_id j → handle_of store p j h →
  within (around (mkPath (anchored root)
                    (parts root ++ [p; j; Artifacts.attr_name a ++ py ".txt"])))
    w (Artifacts._set_text_property h a v w).2.2.
Proof.
  intros Hp Hj (<- & <- & Hs). unfold Artifacts._set_text_property.
  destruct (utf8_encode v); [|reflexivity].
  unfold Artifacts.text_key, Artifacts.key. rewrite Hs.
  pose proof (joinpath_relative root _ _
                (Path_makekey_entry _ _ _ Hp Hj (valid_id_text_entry a))) as Heq.
  rewrite <- Heq.
  match goal with |- context [PathStore.add ?s ?k ?b w] =>
    pose proof (within_PathStore_add s k b w) as Hadd;
    destruct (PathStore.add s k b w) as [[[]|e] w1]
  end; simpl in *; (eapply within_weaken; [|exact Hadd]); intros ? ? ?; by left.
Qed.

Lemma within_ArtifactStore_add p j path :
  valid_id p → valid_id j →
  respects
    (within (around (mkPath (anchored root) (parts root ++ [p; j; py "artifacts"]))))
    (ArtifactStore.add store p j path).
Proof.
  intros Hp Hj. unfold ArtifactStore.add.
  apply respects_bind; [apply _| |intros _; apply respects_ret; apply _].
  destruct path as [path|]; [|apply respects_ret; apply _].
  destruct (arg_truthy path); [|apply respects_ret; apply _].
  by apply within_Artifacts_add.
Qed.

Lemma ArtifactStore_get_eq p j w :
  ArtifactStore.get store p j w =
  (match resolve w (pair_dir store p j) with
   | Raise (OSError n) => Raise (OSError n)
   | _ => Ok (if bool_decide (is_Some (stat_of w (pair_dir store p j)))
              then Some (Artifacts.init p j (ArtifactStore.path_store store))
              else None)
   end, w).
Proof.
  unfold ArtifactStore.get, PathStore.get_directory, bind, pair_dir.
  rewrite Path_exists_eq.
  destruct (resolve _ _) as [l|[]]; try case_bool_decide; done.
Qed.

(** When no directory exists for a pair, [get] answers [None], or
    raises for a path beyond the limits of the system. *)
Lemma ArtifactStore_get_absent p j w :
  ¬ is_Some (stat_of w (pair_dir store p j)) →
  (ArtifactStore.get store p j w).1 = Ok None
  ∨ ((ArtifactStore.get store p j w).1 = Raise (OSError ENAMETOOLONG)
     ∧ ¬ fits (pair_dir store p j)).
Proof.
  intros Hno. rewrite ArtifactStore_get_eq. simpl.
  rewrite bool_decide_eq_false_2 by done.
  destruct (resolve _ _) as [l|e] eqn:Hw; [by left|].
  pose proof (resolve_raise_cases _ _ _ Hw) as He.
  destruct He as [->|[->|[->|[->| ->]]]]; try by left.
  right. split; [done|]. intros Hf. by destruct (resolve_fits_raise _ _ _ Hf Hw).
Qed.

Lemma store_inv_step added held w w' p0 j0 x :
  store_inv store added held w →
  (p0, j0) ∈ added →
  nodots (mkPath (anchored root) (parts root ++ [p0; j0; x])) →
  within (around (mkPath (anchored root) (parts root ++ [p0; j0; x]))) w w' →
  store_inv store added held w'.
Proof.
  intros (Hsub & Hvalid & Hinv) Hin Hx0 Hstep. split_and!; try done.
  intros p j Hp Hj Hsome.
  pose proof Hstep as [Hcwd _]. rewrite Hcwd in Hsome.
  destruct (decide (fs w' !! lit (cwd w) (pair_dir store p j)
                    = fs w !! lit (cwd w) (pair_dir store p j))) as [Heq|Hne].
  - apply Hinv; try done. by rewrite <- Heq.
  - rewrite pair_dir_eq in Hne by done.
    apply (pair_place_changed root _ _ _ _ _ _ _ _ Hx0
             (store_path_nodots root [p; j] root_nodots (Forall_two _ _ _ Hp Hj))
             Hstep eq_refl) in Hne as [-> ->].
    done.
Qed.

Lemma store_inv_weaken added held w pj :
  store_inv store added held w → store_inv store (pj :: added) held w.
Proof.
  intros (Hsub & Hvalid & Hinv). split_and!; try done.
  - intros x Hx. right. by apply Hsub.
  - intros p j Hp Hj Hsome. right. by apply Hinv.
Qed.

Lemma store_inv_hold added held w p j :
  store_inv store added held w → valid_id p → valid_id j → (p, j) ∈ added →
  store_inv store added ((p, j) :: held) w.
Proof.
  intros (Hsub & Hvalid & Hinv) Hp Hj Hin. split_and!; try done.
  - intros x Hx. apply elem_of_cons in Hx as [->|Hx]; [done|by apply Hsub].
  - by constructor.
Qed.

Lemma held_valid added held w p j :
  store_inv store added held w → (p, j) ∈ held →
  valid_id p ∧ valid_id j ∧ (p, j) ∈ added.
Proof.
  intros (Hsub & Hvalid & _) Hin.
  rewrite Forall_forall in Hvalid. destruct (Hvalid _ Hin). split_and!; try done.
  by apply Hsub.
Qed.

Lemma is_Some_stat_of_place w p :
  nodots p → is_Some (stat_of w p) → is_Some (fs w !! lit (cwd w) p).
Proof.
  intros Hn. unfold stat_of.
  destruct (resolve w p) as [l|] eqn:Hw; [|by intros [? ?]].
  by rewrite (resolve_lit _ _ _ Hw).
Qed.

Lemma entry_nodots p j x :
  valid_id p → valid_id j → valid_id x →
  nodots (mkPath (anchored root) (parts root ++ [p; j; x])).
Proof. intros. apply store_path_nodots; [done|]. by apply Forall_three. Qed.

Lemma reached_inv added held w :
  reached store added held w → store_inv store added held w.
Proof.
  induction 1 as [w Hstart
                 |added held w p j path h w' _ IH Hp Hj Hadd
                 |added held w p j path e w' _ IH Hp Hj Hadd
                 |added held w p j h w' _ IH Hp Hj Hget
                 |added held w p j h path r w' _ IH Hin Hh Hadd
                 |added held w p j h a v r h' w' _ IH Hin Hh Ha Hset].
  - split_and!; [done|constructor|].
    intros p j Hp Hj Hsome. rewrite Hstart in Hsome by done. by destruct Hsome.
  - pose proof (within_ArtifactStore_add p j path Hp Hj w) as Hstep.
    rewrite Hadd in Hstep. simpl in Hstep.
    apply store_inv_hold; try done; [|by left].
    eapply store_inv_step;
      [by apply store_inv_weaken|by left
      |by apply entry_nodots, valid_id_artifacts|exact Hstep].
  - pose proof (within_ArtifactStore_add p j path Hp Hj w) as Hstep.
    rewrite Hadd in Hstep. simpl in Hstep.
    eapply store_inv_step;
      [by apply store_inv_weaken|by left
      |by apply entry_nodots, valid_id_artifacts|exact Hstep].
  - rewrite ArtifactStore_get_eq in Hget.
    assert (w' = w ∧ is_Some (stat_of w (pair_dir store p j))) as [-> Hs].
    { destruct (resolve _ _) as [l|[]]; try done;
        case_bool_decide; by simplify_eq. }
    apply store_inv_hold; try done.
    destruct IH as (_ & _ & Hinv). apply Hinv; try done.
    apply is_Some_stat_of_place; [|done].
    rewrite pair_dir_eq by done. apply store_path_nodots; [done|].
    by apply Forall_two.
  - destruct (held_valid _ _ _ _ _ IH Hin) as (Hp & Hj & Hadded).
    pose proof (within_Artifacts_add p j h path Hp Hj Hh w) as Hstep.
    rewrite Hadd in Hstep. simpl in Hstep.
    eapply store_inv_step;
      [done|done|by apply entry_nodots, valid_id_artifacts|exact Hstep].
  - destruct (held_valid _ _ _ _ _ IH Hin) as (Hp & Hj & Hadded).
    pose proof (within_set_text_property p j h a v w Hp Hj Hh) as Hstep.
    rewrite Hset in Hstep. simpl in Hstep.
    eapply store_inv_step;
      [done|done|by apply entry_nodots, valid_id_text_entry|exact Hstep].
Qed.

End ArtifactStoreClient.

(** C2 (as amended). For project and job identifiers that are single
    path components, a store whose root has no [.] or [..] component,
    and a client that leaves the [project] property of its handles
    alone: [get] returns a handle exactly when the directory of the pair,
    [<root>/<project>/<job>], exists on disk; in every state the client
    can reach from a store without pair directories, that directory
    exists only for pairs [add] was called for, so until then [get]
    returns no handle: it signals absence, or, for a pair whose path is
    beyond the limits of the system (a name of more than 255 bytes, a
    path of 4096 bytes or more), raises [OSError].  (The directory comes
    to exist when artifacts are added or a text property is set.) *)
Theorem ArtifactStore_get_needs_add (store : ArtifactStore.t)
    (added held : list (pystr * pystr)) (w : world) (p j : pystr) :
  nodots (PathStore.path (ArtifactStore.path_store store)) →
  reached store added held w →
  valid_id p → valid_id j →
  let got := (ArtifactStore.get store p j w).1 in
  let absent :=
    got = Ok None
    ∨ (got = Raise (OSError ENAMETOOLONG) ∧ ¬ fits (pair_dir store p j)) in
  (∀ h, got = Ok (Some h) →
        (p, j) ∈ added ∧ is_Some (stat_of w (pair_dir store p j)))
  ∧ (is_Some (stat_of w (pair_dir store p j)) →
     got = Ok (Some (Artifacts.init p j (ArtifactStore.path_store store))))
  ∧ (stat_of w (pair_dir store p j) = None → absent)
  ∧ ((p, j) ∉ added → absent).
Proof.
  intros Hroot Hreach Hp Hj got absent.
  apply (reached_inv store Hroot) in Hreach as (_ & _ & Hinv).
  assert (is_Some (stat_of w (pair_dir store p j)) → (p, j) ∈ added) as Hadded.
  { intros Hs. apply Hinv; try done. apply is_Some_stat_of_place; [|done].
    rewrite pair_dir_eq by done. apply store_path_nodots; [done|].
    by apply Forall_two. }
  assert (is_Some (stat_of w (pair_dir store p j)) →
          got = Ok (Some (Artifacts.init p j (ArtifactStore.path_store store))))
    as Hsome.
  { intros Hs. unfold got. rewrite ArtifactStore_get_eq. simpl.
    rewrite bool_decide_eq_true_2 by done. unfold stat_of in Hs.
    destruct (resolve _ _) as [l|e]; [done|]. by destruct Hs. }
  split_and!.
  - intros h Hh.
    destruct (decide (is_Some (stat_of w (pair_dir store p j)))) as [Hs|Hs];
      [by auto|].
    destruct (ArtifactStore_get_absent store p j w Hs) as [H|[H _]];
      unfold got in Hh; congruence.
  - done.
  - intros Hs. apply ArtifactStore_get_absent. rewrite Hs. by intros [? ?].
  - intros Hnot. apply ArtifactStore_get_absent. intros Hs. by apply Hnot, Hadded.
Qed.

(** C2, as stated, fails in three ways.  After [add] without a path and
    a version set through the handle, [get] returns a handle for the pair
    although its raw-artifact subtree does not exist.  After the
    [project] property of that handle is assigned and its version set
    again, [get] returns a handle for a pair that [add] was never called
    for.  And for a job identifier of 256 bytes, once the directory of
    its project exists, [get] does not signal absence: it raises. *)
Lemma handle_without_artifact_subtree :
  let store := artifact_store demo_cli in
  let h := Artifacts.init (py "datadog-agent") (py "J1")
             (ArtifactStore.path_store store) in
  let added := ArtifactStore.add store (py "datadog-agent") (py "J1") None
                 empty_cache in
  let set := Artifacts._set_text_property h Artifacts.version
               (py "agent-7.50.0") added.2 in
  let moved := Artifacts._set_text_property set.2.1 Artifacts.project
                 (py "other") set.2.2 in
  let again := Artifacts._set_text_property moved.2.1 Artifacts.version
                 (py "agent-7.50.0") moved.2.2 in
  added.1 = Ok h
  ∧ (ArtifactStore.get store (py "datadog-agent") (py "J1") set.2.2).1 = Ok (Some h)
  ∧ (Artifacts.get h set.2.2).1 = Ok None
  ∧ again.1 = Ok tt
  ∧ (ArtifactStore.get store (py "other") (py "J1") again.2.2).1
    = Ok (Some (Artifacts.init (py "other") (py "J1")
                  (ArtifactStore.path_store store)))
  ∧ (ArtifactStore.get store (py "datadog-agent") (replicate 256 74)
       set.2.2).1
    = Raise (OSError ENAMETOOLONG).
Proof. vm_compute. done. Qed.

(** ** The symbol store over an absolute root *)

Section Writers.
Context (R : world → world → Prop) `{!Reflexive R, !Transitive R}.
Hypothesis R_mkdir : ∀ p, respects R (os_mkdir p).
Hypothesis R_write : ∀ p d, respects R (write_file p d).

Lemma writers_Path_mkdir_rev a rp parents exist_ok :
  respects R (Path_mkdir_rev a rp parents exist_ok).
Proof.
  revert parents exist_ok. induction rp as [|x rp IH]; intros parents exist_ok;
    simpl; (apply respects_try; [apply _|apply R_mkdir|]);
    intros e; destruct e, parents; respects_auto core;
    first [apply IH|apply R_mkdir].
Qed.

Lemma writers_os_makedirs_rev a rp exist_ok :
  respects R (os_makedirs_rev a rp exist_ok).
Proof.
  induction rp as [|x rp IH]; simpl; respects_auto core;
    first [apply IH|apply R_mkdir].
Qed.

Lemma writers_copy2 src dst : respects R (copy2 src dst).
Proof.
  unfold copy2.
  apply respects_bind; [apply _|apply respects_path_isdir; apply _|].
  intros d. cbv zeta. unfold copyfile. respects_auto core; apply R_write.
Qed.

Lemma writers_copytree depth src dst : respects R (copytree depth src dst).
Proof.
  revert src dst. induction depth as [|depth IH]; intros src dst; simpl;
    respects_auto core;
    first [apply writers_os_makedirs_rev|apply writers_copy2|apply IH].
Qed.

Lemma writers_add_directory store k src :
  respects R (PathStore.add_directory store k src).
Proof.
  unfold PathStore.add_directory, Path_mkdir. respects_auto core;
    first [apply writers_Path_mkdir_rev|apply writers_copytree].
Qed.

End Writers.

#[local] Instance dirs_kept_refl : Reflexive dirs_kept.
Proof. by intros w. Qed.

#[local] Instance dirs_kept_trans : Transitive dirs_kept.
Proof.
  intros w1 w2 w3 [Hc1 H1] [Hc2 H2]. split; [congruence|]. intros q Hq. auto.
Qed.

Lemma dirs_kept_insert w l k :
  fs w !! l ≠ Some KDir → dirs_kept w (set_fs (<[l := k]> (fs w)) w).
Proof.
  intros Hl. split; [done|]. intros q Hq. simpl.
  rewrite lookup_insert_ne; [done|]. intros <-. done.
Qed.

Lemma dirs_kept_os_mkdir p : respects dirs_kept (os_mkdir p).
Proof.
  intros w. destruct (os_mkdir p w) as [r w'] eqn:E.
  apply os_mkdir_inv in E. destruct r as [[]|e]; simpl.
  - destruct E as (l & _ & Hl & ->). apply dirs_kept_insert. by rewrite Hl.
  - subst w'. reflexivity.
Qed.

Lemma dirs_kept_write_file p d : respects dirs_kept (write_file p d).
Proof.
  intros w. rewrite write_file_eq.
  destruct (resolve w p) as [l|e]; simpl; [|reflexivity].
  case_decide; simpl; [reflexivity|]. by apply dirs_kept_insert.
Qed.

Lemma walk_dirs_kept f f' cur cs l :
  (∀ q, f !! q = Some KDir → f' !! q = Some KDir) →
  walk f cur cs = Ok l → walk f' cur cs = Ok l.
Proof.
  intros Hk. revert cur. induction cs as [|c cs IH]; intros cur; simpl; [done|].
  destruct (f !! cur) as [[]|] eqn:E; try done. rewrite (Hk _ E).
  destruct (name_too_long c); [done|]. apply IH.
Qed.

Lemma stat_of_dirs_kept w w' p :
  dirs_kept w w' → stat_of w p = Some KDir → stat_of w' p = Some KDir.
Proof.
  intros [Hc Hk]. unfold stat_of, resolve, start. rewrite Hc.
  destruct (check_path p); [|done].
  destruct (walk (fs w) _ _) as [l|] eqn:Hw; [|done].
  rewrite (walk_dirs_kept _ _ _ _ _ Hk Hw). apply Hk.
Qed.

Lemma Path_parsed s : parsed (Path s).
Proof.
  unfold parsed, Path. simpl. apply Forall_forall. intros c Hc.
  apply list_elem_of_filter in Hc as [Hk Hin]. split; [done|].
  pose proof (split_on_segments slash s) as H. rewrite Forall_forall in H. auto.
Qed.

Lemma joinpath_parsed p s : parsed p → parsed (p </> s).
Proof.
  intros Hp. unfold joinpath. pose proof (Path_parsed s) as Hs.
  destruct (anchored (Path s)); [done|]. unfold parsed. simpl.
  by apply Forall_app.
Qed.

Lemma joinpath_anchored p s : anchored p = true → anchored (p </> s) = true.
Proof.
  intros Hp. unfold joinpath. by destruct (anchored (Path s)) eqn:E.
Qed.

Lemma split_join sep ps :
  Forall (λ seg, sep ∉ seg) ps → ps ≠ [] → split_on sep (join_on sep ps) = ps.
Proof.
  induction 1 as [|x ps Hx _ IH]; [done|]. intros _.
  destruct ps as [|y ps]; simpl.
  - by apply split_on_no_sep.
  - rewrite split_on_app_sep by done. f_equal. by apply IH.
Qed.

Lemma filter_all {A} (P : A → Prop) `{!∀ x, Decision (P x)} (l : list A) :
  Forall P l → filter P l = l.
Proof.
  induction 1 as [|x l Hx _ IH]; [done|]. by rewrite filter_cons_True, IH.
Qed.

(** [Path(str(p))] is [p] for an absolute path as [Path] builds them. *)
Lemma Path_path_str p : anchored p = true → parsed p → Path (path_str p) = p.
Proof.
  destruct p as [a ps]. simpl. intros -> Hp. unfold path_str, Path.
  cbn [anchored parts]. f_equal.
  cbn [split_on]. rewrite decide_True by done.
  rewrite filter_cons_False by (by intros ?).
  destruct ps as [|x ps]; [done|].
  rewrite split_join; [|by eapply Forall_impl; [exact Hp|]; intros ? []|done].
  apply filter_all. eapply Forall_impl; [exact Hp|]. by intros ? [].
Qed.

(** Over an absolute root the Symbol Store agrees with itself: [add]
    returns [<root>/<v>/symbols], the place it copied to, and [get]
    afterwards returns that same path. *)
Lemma SymbolStore_absolute_root_agrees store v src w r w' :
  anchored (PathStore.path store) = true →
  parsed (PathStore.path store) →
  SymbolStore.add store v src w = (Ok r, w') →
  r = PathStore.path store </> v </> py "symbols"
  ∧ stat_of w' r = Some KDir
  ∧ SymbolStore.get store v w' = (Ok (Some r), w').
Proof.
  intros Ha Hp. unfold SymbolStore.add, SymbolStore.get.
  set (dst := PathStore.path store </> v </> py "symbols").
  assert (PathStore.path store </> path_str dst = dst) as Hkey.
  { assert (anchored dst = true) as Hd by by apply joinpath_anchored, joinpath_anchored.
    assert (parsed dst) as Hpd by by apply joinpath_parsed, joinpath_parsed.
    unfold joinpath at 1. rewrite (Path_path_str dst Hd Hpd). by rewrite Hd. }
  unfold bind at 1.
  destruct (PathStore.add_directory _ _ _ w) as [[[]|e] w1] eqn:Hadd; [|done].
  intros [= <- <-].
  assert (stat_of w1 dst = Some KDir) as Hstat.
  { revert Hadd. unfold PathStore.add_directory. rewrite Hkey. unfold bind.
    destruct (Path_mkdir dst true true w) as [[[]|e] w0] eqn:Hmk; [|done].
    intros Hcopy. apply Path_mkdir_isdir in Hmk.
    eapply stat_of_dirs_kept; [|exact Hmk].
    pose proof (writers_copytree dirs_kept dirs_kept_os_mkdir dirs_kept_write_file
                  recursion_limit (arg_Path src) dst w0) as H.
    by rewrite Hcopy in H. }
  split_and!; [done..|].
  unfold PathStore.get_directory, bind. rewrite Hkey.
  by rewrite (Path_exists_stat _ _ _ Hstat).
Qed.

(** ** The statements at work on the concrete sessions *)

Lemma run_eq {A} (m : M A) w r : (m w).1 = r → m w = (r, (m w).2).
Proof. intros <-. by destruct (m w). Qed.

Lemma run_handle_eq {A B C} (x : A * (B * C)) : x = (x.1, (x.2.1, x.2.2)).
Proof. by destruct x as [? [? ?]]. Qed.

Lemma PathStore_get_file store k w l d :
  resolve w (PathStore.path store </> k) = Ok l →
  fs w !! l = Some (KFile d) →
  PathStore.get store k w = (Ok (Some d), w).
Proof.
  intros Hw Hl. unfold PathStore.get, bind.
  rewrite (Path_exists_stat _ _ (KFile d)) by (unfold stat_of; by rewrite Hw).
  unfold Path_read_bytes. by erewrite read_file_ok.
Qed.

Lemma ArtifactStore_get_found store p j w l k :
  resolve w (pair_dir store p j) = Ok l →
  fs w !! l = Some k →
  ArtifactStore.get store p j w
  = (Ok (Some (Artifacts.init p j (ArtifactStore.path_store store))), w).
Proof.
  intros Hw Hl. rewrite ArtifactStore_get_eq. unfold stat_of. rewrite Hw, Hl.
  by rewrite bool_decide_eq_true_2 by eauto.
Qed.


(** Nothing is recorded in a machine at a place that is not listed. *)
Ltac not_listed :=
  unfold machine, fs_of; simpl fs;
  apply not_elem_of_list_to_map_1; vm_compute;
  let H := fresh in
  intros H; repeat (apply elem_of_cons in H as [H|H]; [discriminate|]);
  by apply elem_of_nil in H.

(** A decidable fact about the concrete sessions, by evaluation. *)
Ltac by_evaluation := apply (bool_decide_unpack _); vm_compute; exact I.

(** The round trip on the blob store: a blob written under [a/b.txt] in
    an empty store is read back. *)
Lemma PathStore_add_get_roundtrip_witness :
  let w' := (PathStore.add blob_store (py "a/b.txt") [104; 105] empty_cache).2 in
  PathStore.get blob_store (py "a/b.txt") w' = (Ok (Some [104; 105]), w').
Proof.
  intros w'.
  apply (PathStore_add_get_roundtrip blob_store (py "a/b.txt") [104; 105]
           empty_cache w').
  apply run_eq. vm_compute. reflexivity.
Defined.

(** With the version of [J1] cached, resolving its symbols leaves the
    provider log as it was. *)
Lemma fast_path_no_ci_calls_witness :
  ci_log (get_symbols_for_job_id demo_unzip demo_project demo_cli (py "J1")
            version_only_cache).2
  = ci_log version_only_cache.
Proof.
  set (store := ArtifactStore.path_store (artifact_store demo_cli)).
  set (a := Artifacts.init (py "datadog-agent") (py "J1") store).
  apply (fast_path_no_ci_calls demo_unzip demo_project demo_cli (py "J1")
           version_only_cache a (py "agent-7.50.0")
           (Artifacts.setattr a Artifacts.version (py "agent-7.50.0"))
           version_only_cache version_only_cache).
  - eapply ArtifactStore_get_found; vm_compute; reflexivity.
  - apply (get_text_property_from_storage a Artifacts.version
             (py "agent-7.50.0") (py "agent-7.50.0")).
    + reflexivity.
    + vm_compute. reflexivity.
    + discriminate.
    + intros c [= <-]. vm_compute. reflexivity.
    + intros c [= <-]. vm_compute. reflexivity.
    + eapply PathStore_get_file; vm_compute; reflexivity.
  - discriminate.
Defined.

(** A version set through a handle is the version the handle holds and
    the version a fresh handle reads; and a handle whose version cannot
    be written, a directory being in the way, keeps the version it
    held. *)
Lemma setter_cache_agrees_with_storage_witness :
  let h := Artifacts.init (py "datadog-agent") (py "J1") blob_store in
  let done := Artifacts._set_text_property h Artifacts.version (py "7.50.0")
                empty_cache in
  let old := Artifacts.setattr h Artifacts.version (py "7.49.0") in
  let failed := Artifacts._set_text_property old Artifacts.version (py "7.50.0")
                  blocked_store in
  (done.1 = Ok tt
   ∧ Artifacts.getattr done.2.1 Artifacts.version = Some (py "7.50.0")
   ∧ Artifacts._get_text_property done.2.1 Artifacts.version done.2.2
     = (Ok (Some (py "7.50.0"), done.2.1), done.2.2)
   ∧ Artifacts._get_text_property h Artifacts.version done.2.2
     = (Ok (Some (py "7.50.0"),
            Artifacts.setattr h Artifacts.version (py "7.50.0")), done.2.2))
  ∧ (failed.1 = Raise IsADirectoryError
     ∧ failed.2.1 = old
     ∧ Artifacts.getattr failed.2.1 Artifacts.version = Some (py "7.49.0")).
Proof.
  intros h done old failed.
  assert (∀ c, head (py "7.50.0") = Some c → isspace c = false) as Hhead
    by (intros c [= <-]; vm_compute; reflexivity).
  assert (∀ c, last (py "7.50.0") = Some c → isspace c = false) as Hlast
    by (intros c [= <-]; vm_compute; reflexivity).
  split.
  - assert (done.1 = Ok tt) as Hok by (vm_compute; reflexivity).
    pose proof (setter_cache_agrees_with_storage h Artifacts.version (py "7.50.0")
                  empty_cache done.1 done.2.1 done.2.2
                  ltac:(discriminate) ltac:(discriminate) Hhead Hlast
                  (run_handle_eq done)) as H.
    rewrite Hok in H. exact (conj Hok H).
  - assert (failed.1 = Raise IsADirectoryError) as Hno by (vm_compute; reflexivity).
    pose proof (setter_cache_agrees_with_storage old Artifacts.version (py "7.50.0")
                  blocked_store failed.1 failed.2.1 failed.2.2
                  ltac:(discriminate) ltac:(discriminate) Hhead Hlast
                  (run_handle_eq failed)) as H.
    rewrite Hno in H. destruct H as [H1 H2]. split; [exact Hno|].
    split; [exact H1|]. rewrite H2. reflexivity.
Defined.

(** After writes to [a/b.txt] and [d], the key [c/e.txt] is absent, and
    reading a key of 256 bytes raises and leaves the disk alone. *)
Lemma PathStore_get_unrelated_key_absent_witness :
  let ops := [OpAdd (py "a/b.txt") [1]; OpAddDirectory (py "d") (Path (py "/tmp"))] in
  let w := run_ops blob_store ops empty_cache in
  PathStore.get blob_store (py "c/e.txt") w = (Ok None, w)
  ∧ PathStore.get blob_store (replicate 256 107) w
    = (Raise (OSError ENAMETOOLONG), w).
Proof.
  intros ops w. split.
  - destruct (PathStore_get_unrelated_key_absent blob_store ops (py "c/e.txt")
                empty_cache ltac:(by_evaluation)
                ltac:(repeat constructor; by_evaluation))
      as (r & Hrun & [->|[-> Hnf]]); [exact Hrun|].
    exfalso. apply Hnf. by_evaluation.
  - destruct (PathStore_get_unrelated_key_absent blob_store ops (replicate 256 107)
                empty_cache ltac:(by_evaluation)
                ltac:(repeat constructor; by_evaluation))
      as (r & Hrun & [->|[-> Hnf]]); [|exact Hrun].
    exfalso.
    assert ((PathStore.get blob_store (replicate 256 107) w).1
            = Raise (OSError ENAMETOOLONG)) as H by (vm_compute; reflexivity).
    fold w in Hrun. rewrite Hrun in H. discriminate.
Defined.





(** The duplicate of the demonstration archive: [x/agent.exe.debug]
    comes after [a/b/c/agent.exe.debug], and its contents are the ones
    found after extraction. *)
Example last_duplicate_wins :
  let r := extract_agent_symbols demo_unzip (Path (py "/tmp/agent-7.50.0.debug.zip"))
             (Path (py "/tmp/out")) extraction_site in
  r.1 = Ok tt
  ∧ stat_of r.2 (Path (py "/tmp/out/agent.exe.debug")) = Some (KFile [8])
  ∧ stat_of r.2 (Path (py "/tmp/out/process-agent.exe.debug")) = Some (KFile [5])
  ∧ stat_of r.2 (Path (py "/tmp/out/readme.txt")) = None
  ∧ stat_of r.2 (Path (py "/tmp/out/a")) = None.
Proof. vm_compute. done. Qed.

(** After [add] and a version set for [J1], the store gives a handle for
    [J1] and still has none for [J2]. *)
Lemma ArtifactStore_get_needs_add_witness :
  let store := artifact_store demo_cli in
  let p := py "datadog-agent" in
  let h := Artifacts.init p (py "J1") (ArtifactStore.path_store store) in
  let w := (Artifacts._set_text_property h Artifacts.version (py "agent-7.50.0")
              empty_cache).2.2 in
  (ArtifactStore.get store p (py "J2") w).1 = Ok None
  ∧ (ArtifactStore.get store p (py "J1") w).1 = Ok (Some h).
Proof.
  intros store p h w.
  assert (nodots (PathStore.path (ArtifactStore.path_store store))) as Hroot
    by by_evaluation.
  assert (valid_id p) as Hp by by_evaluation.
  assert (valid_id (py "J1")) as H1 by by_evaluation.
  assert (valid_id (py "J2")) as H2 by by_evaluation.
  assert (reached store [(p, py "J1")] [(p, py "J1")] w) as Hreach.
  { eapply (reached_set store _ _ empty_cache p (py "J1") h Artifacts.version);
      [|by left|done|discriminate|apply run_handle_eq].
    eapply (reached_add store [] [] empty_cache p (py "J1") None h);
      [|done..|reflexivity].
    apply reached_start. intros p' j' Hp' Hj'.
    rewrite (pair_dir_eq store p' j' Hp' Hj').
    rewrite lit_nodots
      by (apply store_path_nodots; [exact Hroot|by apply Forall_two]).
    not_listed. }
  split.
  - destruct (ArtifactStore_get_needs_add store _ _ w p (py "J2") Hroot Hreach Hp H2)
      as (_ & _ & _ & Hnot).
    destruct Hnot as [Hnone|[_ Hnf]]; [|exact Hnone|].
    + intros Hin. apply elem_of_cons in Hin as [Heq|Hin].
      * apply (f_equal snd) in Heq. vm_compute in Heq. discriminate.
      * by apply elem_of_nil in Hin.
    + exfalso. apply Hnf. by_evaluation.
  - destruct (ArtifactStore_get_needs_add store _ _ w p (py "J1") Hroot Hreach Hp H1)
      as (_ & Hsome & _ & _).
    apply Hsome. by_evaluation.
Defined.
